(** * Verification of the prompt optimizer of [src/main.py]

    The development embeds the [PromptOptimizer] class of [src/main.py]
    as Rocq functions and proves properties of the record it builds and
    of the JSON text it prints.

    A Python [str] is a sequence of Unicode code points: it is modelled as
    a list of numbers, one per code point.  The literals of the source are
    written as UTF-8 text and decoded by [u], so the tables below can be
    compared with the Python ones character by character. *)

From Stdlib Require Import List NArith Arith Bool Lia String Ascii.
Import ListNotations.

Set Implicit Arguments.

(** ** Python strings *)

Module Str.

Definition char := N.
Definition str := list char.

(** *** Source literals: UTF-8 text to code points *)

Definition byte_of (a : ascii) : N := N_of_ascii a.

Fixpoint bytes_of (s : string) : list N :=
  match s with
  | EmptyString => []
  | String a s' => byte_of a :: bytes_of s'
  end.

(** Payload of a continuation byte [10xxxxxx]. *)
Definition cont (b : N) : N := N.land b 63.

(** One code point per lead byte; the fuel is the number of bytes. *)
Fixpoint decode (fuel : nat) (bs : list N) : str :=
  match fuel with
  | O => []
  | S fuel' =>
      match bs with
      | [] => []
      | b0 :: r0 =>
          if (b0 <? 128)%N then b0 :: decode fuel' r0
          else if (b0 <? 224)%N then
            match r0 with
            | b1 :: r1 =>
                (N.land b0 31 * 64 + cont b1)%N :: decode fuel' r1
            | _ => []
            end
          else if (b0 <? 240)%N then
            match r0 with
            | b1 :: b2 :: r2 =>
                (N.land b0 15 * 4096 + cont b1 * 64 + cont b2)%N
                  :: decode fuel' r2
            | _ => []
            end
          else
            match r0 with
            | b1 :: b2 :: b3 :: r3 =>
                (N.land b0 7 * 262144 + cont b1 * 4096 + cont b2 * 64
                 + cont b3)%N :: decode fuel' r3
            | _ => []
            end
      end
  end.

(** [u "..."] is the Python string written between the quotes. *)
Definition u (s : string) : str :=
  let bs := bytes_of s in decode (List.length bs) bs.

(** *** Comparison *)

Fixpoint eqb (a b : str) : bool :=
  match a, b with
  | [], [] => true
  | x :: a', y :: b' => (x =? y)%N && eqb a' b'
  | _, _ => false
  end.

(** *** [s.startswith(p)], returning what follows the prefix *)

Fixpoint strip_prefix (p s : str) : option str :=
  match p with
  | [] => Some s
  | x :: p' =>
      match s with
      | [] => None
      | y :: s' => if (x =? y)%N then strip_prefix p' s' else None
      end
  end.

Definition startswith (s p : str) : bool :=
  match strip_prefix p s with Some _ => true | None => false end.

(** *** [s.find(sub)] and [sub in s]

    [find_from sub s pos] scans [s], whose first character has index
    [pos] in the whole string, and returns the index of the first
    occurrence of [sub]. *)

Fixpoint find_from (sub s : str) (pos : nat) : option nat :=
  if startswith s sub then Some pos
  else match s with
       | [] => None
       | _ :: s' => find_from sub s' (S pos)
       end.

(** [s.find(sub, start)] as an option; Python's [-1] is [None]. *)
Definition find (s sub : str) (start : nat) : option nat :=
  if start <=? List.length s then find_from sub (skipn start s) start
  else None.

(** [sub in s] *)
Definition contains (sub s : str) : bool :=
  match find s sub 0 with Some _ => true | None => false end.

(** [s[a:b]] for [0 <= a] and [0 <= b] *)
Definition slice (s : str) (a b : nat) : str :=
  firstn (b - a) (skipn a s).

(** *** [s.strip()]

    [str.isspace] on one character: the white-space code points of
    CPython's Unicode database. *)

Definition isspace (c : char) : bool :=
  ((9 <=? c) && (c <=? 13) || (28 <=? c) && (c <=? 32)
   || (c =? 133) || (c =? 160) || (c =? 5760)
   || (8192 <=? c) && (c <=? 8202)
   || (c =? 8232) || (c =? 8233) || (c =? 8239) || (c =? 8287)
   || (c =? 12288))%N.

Fixpoint lstrip (s : str) : str :=
  match s with
  | c :: s' => if isspace c then lstrip s' else s
  | [] => []
  end.

Definition rstrip (s : str) : str := rev (lstrip (rev s)).

Definition strip (s : str) : str := rstrip (lstrip s).

(** *** [s.split(sep)] for a non-empty separator

    [cur] holds, reversed, the characters of the piece being read; [skip]
    counts the characters of a separator that are still to be passed. *)

Fixpoint split_go (sep s cur : str) (skip : nat) : list str :=
  match skip with
  | S k =>
      match s with
      | [] => [rev cur]
      | _ :: s' => split_go sep s' cur k
      end
  | O =>
      match s with
      | [] => [rev cur]
      | c :: s' =>
          if startswith s sep
          then rev cur :: split_go sep s' [] (List.length sep - 1)
          else split_go sep s' (c :: cur) 0
      end
  end.

Definition split (s sep : str) : list str := split_go sep s [] 0.

End Str.

Import Str.

(** ** The part of Python's [re] that the patterns use

    Matching is by backtracking, as in CPython's engine: [rmatch r s g k]
    matches [r] at the front of [s] and hands what is left, with the text
    of group 1, to the continuation [k]; when [k] refuses, the next
    alternative is tried. *)

Module Re.

Inductive regex : Type :=
| Lit (l : str)            (* literal characters *)
| AtEnd                    (* [$] *)
| LazyAny                  (* [.*?] *)
| Group (r : regex)        (* [( r )], the capturing group 1 *)
| Seq (r1 r2 : regex)      (* [r1 r2] *)
| Alt (r1 r2 : regex).     (* [r1 | r2] *)

Definition newline : char := 10%N.

(** Outcome of a match: the input left after it and the text of group 1. *)
Definition outcome : Type := str * option str.
Definition kont : Type := str -> option str -> option outcome.

(** [.*?]: as few characters as the continuation accepts, none of them a
    newline. *)
Fixpoint lazy_any (s : str) (g : option str) (k : kont) : option outcome :=
  match k s g with
  | Some o => Some o
  | None =>
      match s with
      | [] => None
      | c :: s' => if (c =? newline)%N then None else lazy_any s' g k
      end
  end.

(** [$] holds at the end of the string and before a final newline. *)
Definition at_end (s : str) : bool :=
  match s with
  | [] => true
  | [c] => (c =? newline)%N
  | _ => false
  end.

Fixpoint rmatch (r : regex) (s : str) (g : option str) (k : kont)
  : option outcome :=
  match r with
  | Lit l =>
      match strip_prefix l s with
      | Some s' => k s' g
      | None => None
      end
  | AtEnd => if at_end s then k s g else None
  | LazyAny => lazy_any s g k
  | Group r1 =>
      rmatch r1 s g
        (fun s' _ => k s' (Some (firstn (List.length s - List.length s') s)))
  | Seq r1 r2 => rmatch r1 s g (fun s' g' => rmatch r2 s' g' k)
  | Alt r1 r2 =>
      match rmatch r1 s g k with
      | Some o => Some o
      | None => rmatch r2 s g k
      end
  end.

(** One attempt at the front of [s].  With [must_advance] an empty match
    is refused, as the engine does right after an empty match. *)
Definition match_at (must_advance : bool) (r : regex) (s : str)
  : option outcome :=
  rmatch r s None
    (fun s' g =>
       if must_advance && (List.length s' =? List.length s) then None
       else Some (s', g)).

(** Number of characters a match consumed. *)
Definition consumed (s rest : str) : nat := List.length s - List.length rest.

(** The match object: only [start()], [end()] and [group(1)] are kept. *)
Record Match : Type := mkMatch {
  m_start : nat;
  m_end : nat;
  m_group1 : option str
}.

(** [match.group(1)]; a group that took no part reads as empty here. *)
Definition group1 (m : Match) : str :=
  match m_group1 m with Some t => t | None => [] end.

(** [re.search]: the first position, from the left, where the pattern
    matches. *)
Fixpoint search_from (r : regex) (s : str) (pos : nat) : option Match :=
  match match_at false r s with
  | Some (rest, g) => Some (mkMatch pos (pos + consumed s rest) g)
  | None =>
      match s with
      | [] => None
      | _ :: s' => search_from r s' (S pos)
      end
  end.

Definition search (r : regex) (s : str) : option Match := search_from r s 0.

(** [re.findall] for a pattern with one group: the text of the group in
    every match, the matches taken from left to right without overlap.
    [skip] counts the characters of the last match still to be passed. *)
Fixpoint findall_go (r : regex) (s : str) (skip : nat) : list str :=
  let next (k : nat) : list str :=
    match s with
    | [] => []
    | _ :: s' => findall_go r s' k
    end in
  let item (g : option str) : str :=
    match g with Some t => t | None => [] end in
  match skip with
  | S k => next k
  | O =>
      match match_at false r s with
      | None => next 0
      | Some (rest, g) =>
          match consumed s rest with
          | S n => item g :: next n
          | O =>
              item g ::
              match match_at true r s with
              | Some (rest2, g2) => item g2 :: next (consumed s rest2 - 1)
              | None => next 0
              end
          end
      end
  end.

Definition findall (r : regex) (s : str) : list str := findall_go r s 0.

End Re.

Import Re.

(** ** The data model of [src/main.py] *)

(** [class PromptType(Enum)] *)
Inductive PromptType : Type :=
| CREATIVE
| ANALYTICAL
| CONVERSATIONAL
| INSTRUCTIONAL.

(** [PromptType.X.value] *)
Definition value (t : PromptType) : str :=
  match t with
  | CREATIVE => u "creative"
  | ANALYTICAL => u "analytical"
  | CONVERSATIONAL => u "conversational"
  | INSTRUCTIONAL => u "instructional"
  end.

(** [@dataclass class PromptStructure] *)
Record PromptStructure : Type := mkPromptStructure {
  role : str;
  task : str;
  context : str;
  requirements : list str;
  format : str;
  examples : list str;
  constraints : list str;
  tone : str;
  prompt_type : str
}.

(** The dictionary built by [analyze_natural_prompt], one field per key. *)
Module Analysis.
Record t : Type := mk {
  role : str;
  task : str;
  context : str;
  requirements : list str;
  format : str;
  tone : str;
  prompt_type : str
}.
End Analysis.

(** The patterns of the source all have the shape
    [lead(.*?)(?:，|。|$)]. *)
Definition comma : str := Eval vm_compute in u "，".
Definition period : str := Eval vm_compute in u "。".

Definition lead_pattern (lead : str) : regex :=
  Seq (Lit lead)
      (Seq (Group LazyAny) (Alt (Lit comma) (Alt (Lit period) AtEnd))).

(** The attributes that [__init__] sets.  A Python dictionary keeps its
    keys in insertion order and the methods iterate over it, so the
    keyword tables are association lists. *)
Record PromptOptimizer : Type := mkPromptOptimizer {
  role_keywords : list (str * str);
  task_patterns : list regex;
  format_keywords : list (str * str);
  tone_keywords : list (str * str)
}.

Definition __init__ : PromptOptimizer := Eval vm_compute in
  {| role_keywords :=
       [ (u "专家", u "expert"); (u "助手", u "assistant");
         (u "老师", u "teacher"); (u "分析师", u "analyst");
         (u "顾问", u "consultant"); (u "作家", u "writer") ];
     task_patterns :=
       [ lead_pattern (u "帮我");    (* r"帮我(.*?)(?:，|。|$)" *)
         lead_pattern (u "请");      (* r"请(.*?)(?:，|。|$)" *)
         lead_pattern (u "需要");    (* r"需要(.*?)(?:，|。|$)" *)
         lead_pattern (u "想要") ];  (* r"想要(.*?)(?:，|。|$)" *)
     format_keywords :=
       [ (u "列表", u "list"); (u "表格", u "table");
         (u "段落", u "paragraph"); (u "要点", u "bullet_points");
         (u "代码", u "code"); (u "报告", u "report") ];
     tone_keywords :=
       [ (u "专业", u "professional"); (u "友好", u "friendly");
         (u "正式", u "formal"); (u "幽默", u "humorous");
         (u "简洁", u "concise"); (u "详细", u "detailed") ] |}.

(** ** The methods of [PromptOptimizer] *)

(** [for keyword, tag in table.items(): if keyword in prompt: return ...]:
    the first entry, in table order, whose keyword occurs in the prompt. *)
Fixpoint first_hit (table : list (str * str)) (prompt : str)
  : option (str * str) :=
  match table with
  | [] => None
  | (keyword, tag) :: rest =>
      if contains keyword prompt then Some (keyword, tag)
      else first_hit rest prompt
  end.

Definition _extract_role (self : PromptOptimizer) (prompt : str) : str :=
  match first_hit (role_keywords self) prompt with
  | Some (keyword, _) => u "你是一位" ++ keyword
  | None => u "你是一位AI助手"
  end.

(** The loop of [_extract_task]: [None] when it ends without a [return]. *)
Fixpoint task_loop (patterns : list regex) (prompt : str) : option str :=
  match patterns with
  | [] => None
  | pattern :: rest =>
      match search pattern prompt with
      | Some m => Some (strip (group1 m))
      | None => task_loop rest prompt
      end
  end.

Definition _extract_task (self : PromptOptimizer) (prompt : str) : str :=
  match task_loop (task_patterns self) prompt with
  | Some t => t
  | None =>
      if contains period prompt then nth 0 (split prompt period) []
      else prompt
  end.

Definition context_indicators : list str := Eval vm_compute in
  [u "背景"; u "情况"; u "场景"; u "环境"].

(** The loop of [_extract_context].  [find] answers [None] where Python
    answers [-1]; after [indicator in prompt] the first [find] cannot. *)
Fixpoint context_loop (indicators : list str) (prompt : str) : str :=
  match indicators with
  | [] => []
  | indicator :: rest =>
      if contains indicator prompt then
        match find prompt indicator 0 with
        | Some start =>
            match find prompt period start with
            | Some end_ => slice prompt start (end_ + 1)
            | None => context_loop rest prompt
            end
        | None => context_loop rest prompt
        end
      else context_loop rest prompt
  end.

Definition _extract_context (self : PromptOptimizer) (prompt : str) : str :=
  context_loop context_indicators prompt.

Definition requirement_patterns : list regex := Eval vm_compute in
  [ lead_pattern (u "要求：");   (* r"要求：(.*?)(?:，|。|$)" *)
    lead_pattern (u "需要");     (* r"需要(.*?)(?:，|。|$)" *)
    lead_pattern (u "必须") ].   (* r"必须(.*?)(?:，|。|$)" *)

Definition default_requirement : str := Eval vm_compute in
  u "生成高质量的回答".

(** The loop of [_extract_requirements]: [requirements.extend(...)] once
    per pattern, starting from the list [requirements]. *)
Fixpoint requirements_loop (patterns : list regex) (prompt : str)
  (requirements : list str) : list str :=
  match patterns with
  | [] => requirements
  | pattern :: rest =>
      let matches := findall pattern prompt in
      requirements_loop rest prompt (requirements ++ map strip matches)
  end.

Definition _extract_requirements (self : PromptOptimizer) (prompt : str)
  : list str :=
  match requirements_loop requirement_patterns prompt [] with
  | [] => [default_requirement]
  | requirements => requirements
  end.

Definition _extract_format (self : PromptOptimizer) (prompt : str) : str :=
  match first_hit (format_keywords self) prompt with
  | Some (_, format_type) => format_type
  | None => u "paragraph"
  end.

Definition _extract_tone (self : PromptOptimizer) (prompt : str) : str :=
  match first_hit (tone_keywords self) prompt with
  | Some (_, tone) => tone
  | None => u "professional"
  end.

Definition creative_keywords : list str := Eval vm_compute in
  [u "创作"; u "想象"; u "创意"; u "故事"].
Definition analytical_keywords : list str := Eval vm_compute in
  [u "分析"; u "评估"; u "比较"; u "研究"].
Definition instructional_keywords : list str := Eval vm_compute in
  [u "教"; u "解释"; u "指导"; u "步骤"].

(** [any(keyword in prompt for keyword in keywords)] *)
Definition any_in (keywords : list str) (prompt : str) : bool :=
  existsb (fun keyword => contains keyword prompt) keywords.

Definition _classify_prompt_type (self : PromptOptimizer) (prompt : str)
  : str :=
  if any_in creative_keywords prompt then value CREATIVE
  else if any_in analytical_keywords prompt then value ANALYTICAL
  else if any_in instructional_keywords prompt then value INSTRUCTIONAL
  else value CONVERSATIONAL.

Definition analyze_natural_prompt (self : PromptOptimizer) (prompt : str)
  : Analysis.t :=
  {| Analysis.role := _extract_role self prompt;
     Analysis.task := _extract_task self prompt;
     Analysis.context := _extract_context self prompt;
     Analysis.requirements := _extract_requirements self prompt;
     Analysis.format := _extract_format self prompt;
     Analysis.tone := _extract_tone self prompt;
     Analysis.prompt_type := _classify_prompt_type self prompt |}.

(** [mapping.get(key, default)] on a dictionary literal *)
Fixpoint dict_get (A : Type) (mapping : list (str * A)) (key : str)
  (default : A) : A :=
  match mapping with
  | [] => default
  | (k, v) :: rest => if Str.eqb k key then v else dict_get rest key default
  end.

Definition examples_map : list (str * list str) := Eval vm_compute in
  [ (u "creative", [u "示例：创作一个关于未来科技的短故事"]);
    (u "analytical", [u "示例：分析该策略的优缺点"]);
    (u "instructional", [u "示例：步骤1: 准备材料; 步骤2: 开始操作"]);
    (u "conversational", [u "示例：用户友好的对话方式回答"]) ].

Definition _generate_examples (self : PromptOptimizer) (prompt_type : str)
  : list str :=
  dict_get examples_map prompt_type [u "提供相关示例"].

Definition constraints_map : list (str * list str) := Eval vm_compute in
  [ (u "creative", [u "保持内容积极向上"; u "避免敏感话题"]);
    (u "analytical", [u "基于事实和数据"; u "保持客观性"]);
    (u "instructional", [u "步骤清晰明确"; u "易于理解和执行"]);
    (u "conversational", [u "语言自然流畅"; u "回答简洁明了"]) ].

Definition _generate_constraints (self : PromptOptimizer) (prompt_type : str)
  : list str :=
  dict_get constraints_map prompt_type
    [u "遵循基本原则"; u "确保内容准确"].

Definition default_context : str := Eval vm_compute in
  u "用户需要专业的帮助".

(** [a or b] on strings: [b] when [a] is empty *)
Definition or_else (a b : str) : str :=
  match a with [] => b | _ => a end.

(** The record that [optimize_prompt] builds before it prints it. *)
Definition optimized_prompt (self : PromptOptimizer) (natural_prompt : str)
  : PromptStructure :=
  let analysis := analyze_natural_prompt self natural_prompt in
  {| role := Analysis.role analysis;
     task := Analysis.task analysis;
     context := or_else (Analysis.context analysis) default_context;
     requirements := Analysis.requirements analysis;
     format := Analysis.format analysis;
     examples := _generate_examples self (Analysis.prompt_type analysis);
     constraints := _generate_constraints self (Analysis.prompt_type analysis);
     tone := Analysis.tone analysis;
     prompt_type := Analysis.prompt_type analysis |}.

Definition demo_prompt : str := Eval vm_compute in
  u "请帮我写一个关于人工智能发展的专业分析报告，要求详细分析现状和趋势".


(** ** What a pattern [lead(.*?)(?:，|。|$)] captures, read off the text

    These two functions describe the captured text without the matcher:
    they are compared with it in the lemmas below. *)

(** The text after a terminator standing at the front of [s]: a comma or
    a period is passed, the end of the text is not. *)
Definition terminator (s : str) : option str :=
  match strip_prefix comma s with
  | Some rest => Some rest
  | None =>
      match strip_prefix period s with
      | Some rest => Some rest
      | None => if at_end s then Some s else None
      end
  end.

(** The text up to the first terminator, with what follows the
    terminator; nothing when a newline comes first. *)
Fixpoint capture (s : str) : option (str * str) :=
  match terminator s with
  | Some rest => Some ([], rest)
  | None =>
      match s with
      | [] => None
      | c :: s' =>
          if (c =? newline)%N then None
          else match capture s' with
               | Some (body, rest) => Some (c :: body, rest)
               | None => None
               end
      end
  end.

(** ** The part of Python's [json] that [optimize_prompt] uses

    [asdict] turns the record into a dictionary whose values are strings
    and lists of strings; [json.dumps] prints dictionaries, lists and
    strings.  Numbers, booleans and [None] never occur here and are left
    out of the model. *)

Module Json.

#[local] Unset Elimination Schemes.

Inductive json : Type :=
| JString (s : str)
| JArray (items : list json)
| JObject (members : list (str * json)).

#[local] Set Elimination Schemes.

Definition quote : char := 34%N.        (* the double quote *)
Definition backslash : char := 92%N.
Definition lbracket : char := 91%N.     (* [ *)
Definition rbracket : char := 93%N.     (* ] *)
Definition lbrace : char := 123%N.      (* { *)
Definition rbrace : char := 125%N.      (* } *)
Definition colon : char := 58%N.
Definition comma_char : char := 44%N.
Definition space : char := 32%N.

(** *** [json.dumps(o, ensure_ascii=False, indent=2)] *)

(** One lower-case hexadecimal digit. *)
Definition hex_digit (n : N) : char :=
  if (n <? 10)%N then (48 + n)%N else (87 + n)%N.

(** [ESCAPE_DCT]: the two-character escapes, and [\u00xx] for the other
    characters below the space. *)
Definition escape (c : char) : str :=
  if (c =? backslash)%N then [backslash; backslash]
  else if (c =? quote)%N then [backslash; quote]
  else if (c =? 8)%N then [backslash; 98%N]        (* \b *)
  else if (c =? 12)%N then [backslash; 102%N]      (* \f *)
  else if (c =? 10)%N then [backslash; 110%N]      (* \n *)
  else if (c =? 13)%N then [backslash; 114%N]      (* \r *)
  else if (c =? 9)%N then [backslash; 116%N]       (* \t *)
  else if (c <? 32)%N then
    [backslash; 117%N; 48%N; 48%N; hex_digit (c / 16); hex_digit (c mod 16)]
  else [c].

(** [encode_basestring]: with [ensure_ascii=False] every other character
    is written as it is. *)
Definition encode_basestring (s : str) : str :=
  quote :: flat_map escape s ++ [quote].

Fixpoint repeat_str (s : str) (n : nat) : str :=
  match n with
  | O => []
  | S n' => s ++ repeat_str s n'
  end.

(** ['\n' + _indent * _current_indent_level], with [_indent] two spaces *)
Definition newline_indent (level : nat) : str :=
  10%N :: repeat_str [space; space] level.

Definition item_separator : str := [comma_char].
Definition key_separator : str := [colon; space].

Fixpoint join (sep : str) (chunks : list str) : str :=
  match chunks with
  | [] => []
  | [c] => c
  | c :: rest => c ++ sep ++ join sep rest
  end.

(** [_item_separator + newline_indent] *)
Definition separator (level : nat) : str :=
  item_separator ++ newline_indent level.

(** One entry of a dictionary: the key, [_key_separator], the value as
    [enc] prints it. *)
Definition member (enc : json -> str) (kv : str * json) : str :=
  let (key, v) := kv in
  encode_basestring key ++ key_separator ++ enc v.

(** [_iterencode], [_iterencode_list] and [_iterencode_dict], the chunks
    they yield put together. *)
Fixpoint iterencode (o : json) (level : nat) : str :=
  match o with
  | JString s => encode_basestring s
  | JArray [] => [lbracket; rbracket]
  | JArray lst =>
      [lbracket] ++ newline_indent (S level)
      ++ join (separator (S level))
           (map (fun v => iterencode v (S level)) lst)
      ++ newline_indent level ++ [rbracket]
  | JObject [] => [lbrace; rbrace]
  | JObject dct =>
      [lbrace] ++ newline_indent (S level)
      ++ join (separator (S level))
           (map (member (fun v => iterencode v (S level))) dct)
      ++ newline_indent level ++ [rbrace]
  end.

Definition dumps (o : json) : str := iterencode o 0.

(** *** [json.loads] *)

(** [WHITESPACE]: space, tab, newline, carriage return *)
Definition is_ws (c : char) : bool :=
  ((c =? 32) || (c =? 9) || (c =? 10) || (c =? 13))%N.

Fixpoint skip_ws (s : str) : str :=
  match s with
  | c :: r => if is_ws c then skip_ws r else s
  | [] => []
  end.

(** Value of one hexadecimal digit, either case. *)
Definition hex_value (c : char) : option N :=
  if ((48 <=? c) && (c <=? 57))%N then Some (c - 48)%N
  else if ((97 <=? c) && (c <=? 102))%N then Some (c - 87)%N
  else if ((65 <=? c) && (c <=? 70))%N then Some (c - 55)%N
  else None.

(** [_decode_uXXXX] *)
Definition hex4 (h1 h2 h3 h4 : char) : option N :=
  match hex_value h1, hex_value h2, hex_value h3, hex_value h4 with
  | Some a, Some b, Some c, Some d =>
      Some (a * 4096 + b * 256 + c * 16 + d)%N
  | _, _, _, _ => None
  end.

(** [BACKSLASH]: the character an escape letter stands for *)
Definition unescape (e : char) : option char :=
  if (e =? quote)%N then Some quote
  else if (e =? backslash)%N then Some backslash
  else if (e =? 47)%N then Some 47%N       (* / *)
  else if (e =? 98)%N then Some 8%N        (* b *)
  else if (e =? 102)%N then Some 12%N      (* f *)
  else if (e =? 110)%N then Some 10%N      (* n *)
  else if (e =? 114)%N then Some 13%N      (* r *)
  else if (e =? 116)%N then Some 9%N       (* t *)
  else None.

Definition is_high_surrogate (c : N) : bool :=
  ((55296 <=? c) && (c <=? 56319))%N.
Definition is_low_surrogate (c : N) : bool :=
  ((56320 <=? c) && (c <=? 57343))%N.

Definition cons_to (c : char) (r : option (str * str)) : option (str * str) :=
  match r with
  | Some (t, rest) => Some (c :: t, rest)
  | None => None
  end.

(** [scanstring], strict: reads a string whose opening quote has been
    passed and returns it with what follows the closing quote. *)
Fixpoint scanstring (s : str) : option (str * str) :=
  match s with
  | [] => None
  | c :: r =>
      if (c =? quote)%N then Some ([], r)
      else if (c =? backslash)%N then
        match r with
        | [] => None
        | e :: r1 =>
            if (e =? 117)%N then
              match r1 with
              | h1 :: h2 :: h3 :: h4 :: r2 =>
                  match hex4 h1 h2 h3 h4 with
                  | None => None
                  | Some uni =>
                      if is_high_surrogate uni then
                        match r2 with
                        | b :: l :: g1 :: g2 :: g3 :: g4 :: r3 =>
                            if (b =? backslash)%N && (l =? 117)%N then
                              match hex4 g1 g2 g3 g4 with
                              | None => None
                              | Some uni2 =>
                                  if is_low_surrogate uni2
                                  then cons_to
                                         (65536 + (uni - 55296) * 1024
                                          + (uni2 - 56320))%N
                                         (scanstring r3)
                                  else cons_to uni (scanstring r2)
                              end
                            else cons_to uni (scanstring r2)
                        | _ => cons_to uni (scanstring r2)
                        end
                      else cons_to uni (scanstring r2)
                  end
              | _ => None
              end
            else
              match unescape e with
              | Some ch => cons_to ch (scanstring r1)
              | None => None
              end
        end
      else if (c <? 32)%N then None
      else cons_to c (scanstring r)
  end.

(** [dict(pairs)]: a key that comes again keeps its place and takes the
    new value. *)
Fixpoint dict_set (d : list (str * json)) (key : str) (v : json)
  : list (str * json) :=
  match d with
  | [] => [(key, v)]
  | (k, w) :: rest =>
      if Str.eqb k key then (k, v) :: rest else (k, w) :: dict_set rest key v
  end.

Definition dict_of (pairs : list (str * json)) : list (str * json) :=
  fold_left (fun d kv => dict_set d (fst kv) (snd kv)) pairs [].

(** [scan_once], [JSONArray] and [JSONObject].  Every call passes at
    least one character, so the length of the text is fuel enough. *)
Fixpoint scan_once (fuel : nat) (s : str) : option (json * str) :=
  match fuel with
  | O => None
  | S fuel' =>
      match s with
      | [] => None
      | c :: r =>
          if (c =? quote)%N then
            match scanstring r with
            | Some (t, rest) => Some (JString t, rest)
            | None => None
            end
          else if (c =? lbrace)%N then
            match skip_ws r with
            | c1 :: r1 =>
                if (c1 =? rbrace)%N then Some (JObject [], r1)
                else if (c1 =? quote)%N then
                  match object_members fuel' r1 with
                  | Some (pairs, rest) => Some (JObject (dict_of pairs), rest)
                  | None => None
                  end
                else None
            | [] => None
            end
          else if (c =? lbracket)%N then
            match skip_ws r with
            | c1 :: r1 =>
                if (c1 =? rbracket)%N then Some (JArray [], r1)
                else
                  match array_items fuel' (c1 :: r1) with
                  | Some (values, rest) => Some (JArray values, rest)
                  | None => None
                  end
            | [] => None
            end
          else None
      end
  end

(** The loop of [JSONArray], entered at the first character of a value. *)
with array_items (fuel : nat) (s : str) : option (list json * str) :=
  match fuel with
  | O => None
  | S fuel' =>
      match scan_once fuel' s with
      | None => None
      | Some (v, rest) =>
          match skip_ws rest with
          | c :: r =>
              if (c =? rbracket)%N then Some ([v], r)
              else if (c =? comma_char)%N then
                match array_items fuel' (skip_ws r) with
                | Some (values, rest') => Some (v :: values, rest')
                | None => None
                end
              else None
          | [] => None
          end
      end
  end

(** The loop of [JSONObject], entered after the opening quote of a key. *)
with object_members (fuel : nat) (s : str)
  : option (list (str * json) * str) :=
  match fuel with
  | O => None
  | S fuel' =>
      match scanstring s with
      | None => None
      | Some (key, rest) =>
          match skip_ws rest with
          | c :: r =>
              if (c =? colon)%N then
                match scan_once fuel' (skip_ws r) with
                | None => None
                | Some (v, rest1) =>
                    match skip_ws rest1 with
                    | c1 :: r1 =>
                        if (c1 =? rbrace)%N then Some ([(key, v)], r1)
                        else if (c1 =? comma_char)%N then
                          match skip_ws r1 with
                          | c2 :: r2 =>
                              if (c2 =? quote)%N then
                                match object_members fuel' r2 with
                                | Some (pairs, rest') =>
                                    Some ((key, v) :: pairs, rest')
                                | None => None
                                end
                              else None
                          | [] => None
                          end
                        else None
                    | [] => None
                    end
                end
              else None
          | [] => None
          end
      end
  end.

(** [json.loads]: one value, white space allowed around it, nothing
    else. *)
Definition loads (s : str) : option json :=
  match scan_once (List.length s) (skip_ws s) with
  | Some (obj, rest) =>
      match skip_ws rest with
      | [] => Some obj
      | _ => None
      end
  | None => None
  end.

(** The dictionaries that [dumps] is given here have no key twice. *)
#[local] Unset Elimination Schemes.

Inductive wf : json -> Prop :=
| wf_string (s : str) : wf (JString s)
| wf_array (l : list json) : Forall wf l -> wf (JArray l)
| wf_object (d : list (str * json)) :
    NoDup (map fst d) -> Forall (fun kv => wf (snd kv)) d -> wf (JObject d).

#[local] Set Elimination Schemes.

End Json.

Import Json.

(** ** Printing and reading the record *)

(** [dataclasses.asdict]: the fields in declaration order. *)
Definition asdict (p : PromptStructure) : json :=
  JObject
    [ (u "role", JString (role p));
      (u "task", JString (task p));
      (u "context", JString (context p));
      (u "requirements", JArray (map JString (requirements p)));
      (u "format", JString (format p));
      (u "examples", JArray (map JString (examples p)));
      (u "constraints", JArray (map JString (constraints p)));
      (u "tone", JString (tone p));
      (u "prompt_type", JString (prompt_type p)) ].

Definition optimize_prompt (self : PromptOptimizer) (natural_prompt : str)
  : str :=
  dumps (asdict (optimized_prompt self natural_prompt)).

(** Reading a record back: the dictionary that [json.loads] returns is
    passed to the constructor of [PromptStructure] key by key, every
    field of the type its declaration gives. *)
Fixpoint lookup (d : list (str * json)) (key : str) : option json :=
  match d with
  | [] => None
  | (k, v) :: rest => if Str.eqb k key then Some v else lookup rest key
  end.

Definition as_str (v : option json) : option str :=
  match v with
  | Some (JString s) => Some s
  | _ => None
  end.

Fixpoint strings_of (items : list json) : option (list str) :=
  match items with
  | [] => Some []
  | JString s :: rest =>
      match strings_of rest with
      | Some l => Some (s :: l)
      | None => None
      end
  | _ :: _ => None
  end.

Definition as_list (v : option json) : option (list str) :=
  match v with
  | Some (JArray items) => strings_of items
  | _ => None
  end.

Definition record_of (o : json) : option PromptStructure :=
  match o with
  | JObject d =>
      match as_str (lookup d (u "role")), as_str (lookup d (u "task")),
            as_str (lookup d (u "context")),
            as_list (lookup d (u "requirements")),
            as_str (lookup d (u "format")),
            as_list (lookup d (u "examples")),
            as_list (lookup d (u "constraints")),
            as_str (lookup d (u "tone")),
            as_str (lookup d (u "prompt_type")) with
      | Some r, Some t, Some c, Some rq, Some f, Some e, Some cs, Some tn,
        Some pt =>
          if List.length d =? 9
          then Some (mkPromptStructure r t c rq f e cs tn pt)
          else None
      | _, _, _, _, _, _, _, _, _ => None
      end
  | _ => None
  end.

Definition parse_record (text : str) : option PromptStructure :=
  match loads text with
  | Some o => record_of o
  | None => None
  end.

(** *** Closed enumerations of the record (spec, data model) *)

Definition format_values : list str := Eval vm_compute in
  [u "list"; u "table"; u "paragraph"; u "bullet_points"; u "code";
   u "report"].

Definition tone_values : list str := Eval vm_compute in
  [u "professional"; u "friendly"; u "formal"; u "humorous"; u "concise";
   u "detailed"].

Definition prompt_type_values : list str := Eval vm_compute in
  map value [CREATIVE; ANALYTICAL; CONVERSATIONAL; INSTRUCTIONAL].


(** ** The optimizer as an object with state

    The functions above take the attributes of [self] as a value.  Here
    the optimizer is an object whose attributes can be read and assigned,
    and every method is a computation on that object: it returns a result
    or raises, and it leaves the object in some state.  The bodies are
    those of [src/main.py], attribute access by attribute access. *)

Module Obj.

(** What an attribute holds. *)
Inductive attr : Type :=
| Table (t : list (str * str))    (* a dictionary from keyword to tag *)
| Patterns (l : list regex).      (* a list of patterns *)

(** The instance dictionary: the attributes by name, as assigned. *)
Definition object : Type := list (str * attr).

Fixpoint lookup_attr (o : object) (name : str) : option attr :=
  match o with
  | [] => None
  | (n, v) :: rest => if Str.eqb n name then Some v else lookup_attr rest name
  end.

(** [self.name = v]: the attribute is replaced, or added when new. *)
Fixpoint setattr (o : object) (name : str) (v : attr) : object :=
  match o with
  | [] => [(name, v)]
  | (n, w) :: rest =>
      if Str.eqb n name then (n, v) :: rest else (n, w) :: setattr rest name v
  end.

(** A method body: from the object before it runs to its result, [None]
    when it raises, and the object after it. *)
Definition method (A : Type) : Type := object -> option A * object.

Definition ret (A : Type) (a : A) : method A := fun o => (Some a, o).

Definition raise (A : Type) : method A := fun o => (None, o).

Definition bind (A B : Type) (m : method A) (k : A -> method B) : method B :=
  fun o =>
    match m o with
    | (Some a, o') => k a o'
    | (None, o') => (None, o')
    end.

Notation "x <- m ;; k" := (bind m (fun x => k))
  (at level 61, m at next level, right associativity).
Notation "m ;;; k" := (bind m (fun _ => k))
  (at level 61, right associativity).

(** [self.name]: raises when the object has no such attribute. *)
Definition getattr (name : str) : method attr :=
  fun o => (lookup_attr o name, o).

(** [self.name = v] *)
Definition assign (name : str) (v : attr) : method unit :=
  fun o => (Some tt, setattr o name v).

(** [d.items()] of a dictionary, in insertion order. *)
Definition items (v : attr) : method (list (str * str)) :=
  match v with
  | Table t => ret t
  | Patterns _ => raise _
  end.

(** The elements that [for pattern in l] goes through. *)
Definition elements (v : attr) : method (list regex) :=
  match v with
  | Patterns l => ret l
  | Table _ => raise _
  end.

(** The four assignments of [__init__]; the literals are those of the
    record [tables]. *)
Definition tables : PromptOptimizer := __init__.

Definition __init__ : method unit :=
  assign (u "role_keywords") (Table (role_keywords tables)) ;;;
  assign (u "task_patterns") (Patterns (task_patterns tables)) ;;;
  assign (u "format_keywords") (Table (format_keywords tables)) ;;;
  assign (u "tone_keywords") (Table (tone_keywords tables)).

(** [PromptOptimizer()]: a new object, after [__init__] has run on it. *)
Definition new : object := snd (__init__ []).

Definition _extract_role (prompt : str) : method str :=
  v <- getattr (u "role_keywords") ;;
  table <- items v ;;
  ret (match first_hit table prompt with
       | Some (keyword, _) => u "你是一位" ++ keyword
       | None => u "你是一位AI助手"
       end).

Definition _extract_task (prompt : str) : method str :=
  v <- getattr (u "task_patterns") ;;
  patterns <- elements v ;;
  ret (match task_loop patterns prompt with
       | Some t => t
       | None =>
           if contains period prompt then nth 0 (split prompt period) []
           else prompt
       end).

Definition _extract_context (prompt : str) : method str :=
  ret (context_loop context_indicators prompt).

Definition _extract_requirements (prompt : str) : method (list str) :=
  ret (match requirements_loop requirement_patterns prompt [] with
       | [] => [default_requirement]
       | requirements => requirements
       end).

Definition _extract_format (prompt : str) : method str :=
  v <- getattr (u "format_keywords") ;;
  table <- items v ;;
  ret (match first_hit table prompt with
       | Some (_, format_type) => format_type
       | None => u "paragraph"
       end).

Definition _extract_tone (prompt : str) : method str :=
  v <- getattr (u "tone_keywords") ;;
  table <- items v ;;
  ret (match first_hit table prompt with
       | Some (_, tone) => tone
       | None => u "professional"
       end).

Definition _classify_prompt_type (prompt : str) : method str :=
  ret (if any_in creative_keywords prompt then value CREATIVE
       else if any_in analytical_keywords prompt then value ANALYTICAL
       else if any_in instructional_keywords prompt then value INSTRUCTIONAL
       else value CONVERSATIONAL).

(** The dictionary literal evaluates its values in the order written. *)
Definition analyze_natural_prompt (prompt : str) : method Analysis.t :=
  role <- _extract_role prompt ;;
  task <- _extract_task prompt ;;
  context <- _extract_context prompt ;;
  requirements <- _extract_requirements prompt ;;
  format <- _extract_format prompt ;;
  tone <- _extract_tone prompt ;;
  prompt_type <- _classify_prompt_type prompt ;;
  ret (Analysis.mk role task context requirements format tone prompt_type).

Definition _generate_examples (prompt_type : str) : method (list str) :=
  ret (dict_get examples_map prompt_type [u "提供相关示例"]).

Definition _generate_constraints (prompt_type : str) : method (list str) :=
  ret (dict_get constraints_map prompt_type
         [u "遵循基本原则"; u "确保内容准确"]).

Definition optimize_prompt (natural_prompt : str) : method str :=
  analysis <- analyze_natural_prompt natural_prompt ;;
  examples <- _generate_examples (Analysis.prompt_type analysis) ;;
  constraints <- _generate_constraints (Analysis.prompt_type analysis) ;;
  ret (dumps (asdict
         {| role := Analysis.role analysis;
            task := Analysis.task analysis;
            context := or_else (Analysis.context analysis) default_context;
            requirements := Analysis.requirements analysis;
            format := Analysis.format analysis;
            examples := examples;
            constraints := constraints;
            tone := Analysis.tone analysis;
            prompt_type := Analysis.prompt_type analysis |})).

(** Calls of [optimize_prompt] one after the other on the same object,
    each inside a [try] as in [main]: a call that raises is passed over.
    The results are in call order, [None] for a call that raised. *)
Fixpoint calls (texts : list str) : method (list (option str)) :=
  match texts with
  | [] => ret []
  | text :: rest =>
      fun o =>
        let (result, o1) := optimize_prompt text o in
        let (results, o2) := calls rest o1 in
        (option_map (cons result) results, o2)
  end.

(** A method body that leaves every object as it found it. *)
Definition read_only (A : Type) (m : method A) : Prop :=
  forall o, snd (m o) = o.

End Obj.

(** ** The statements of the spec that the code does not meet

    Each is written as the spec words it; the theorems below refute it at
    an input and prove what holds instead. *)

(** Spec, data model: every field of the record is populated. *)
Definition all_fields_populated (r : PromptStructure) : Prop :=
  role r <> [] /\ task r <> [] /\ format r <> [] /\ tone r <> [] /\
  prompt_type r <> [] /\
  requirements r <> [] /\ examples r <> [] /\ constraints r <> [].

(** The first indicator, in table order, that occurs in the prompt. *)
Definition first_indicator (prompt : str) : option str :=
  List.find (fun indicator => contains indicator prompt) context_indicators.

(** Spec, context extractor: when no period follows the first indicator
    found, the context is empty. *)
Definition unterminated_context_empty (prompt : str) : Prop :=
  forall indicator start,
    first_indicator prompt = Some indicator ->
    find prompt indicator 0 = Some start ->
    find prompt period start = None ->
    _extract_context __init__ prompt = [].

(** Spec, scenario of the demonstration prompt of [main]: the task is
    what the "请" pattern captures. *)
Definition demo_task_by_please : Prop :=
  let a := analyze_natural_prompt __init__ demo_prompt in
  Analysis.prompt_type a = u "analytical" /\
  Analysis.tone a = u "professional" /\
  Analysis.format a = u "report" /\
  exists m, search (lead_pattern (u "请")) demo_prompt = Some m /\
            Analysis.task a = strip (group1 m).


(** A text that is white space throughout; the empty text is one. *)
Definition blank (s : str) : bool := forallb isspace s.

(** ** The command line: [main]

    The terminal is modelled by the lines that [input] will return and by
    the calls of [print] and [input] that [main] makes, in order.  The two
    calls in the [try] block raise nothing here, so the [except] branch
    has no counterpart. *)

Module Main.

Inductive event : Type :=
| Print (text : str)       (* [print(text)] *)
| Input (prompt : str).    (* [input(prompt)]: the prompt is shown *)

(** The loop ends by [break], or by the [EOFError] of an [input] that
    finds no line: the call stands outside the [try] block. *)
Inductive ending : Type :=
| Break
| EOFError.


Definition ask : str := Eval vm_compute in
  [newline] ++ u "请输入您的自然语言提示词（输入'quit'退出）：".

Definition result_title : str := Eval vm_compute in
  [newline] ++ u "优化结果：".

Section Loop.

(** [str.lower], whose table of Unicode case pairs is not part of the
    program. *)
Variable lower : str -> str.

(** The [while True] loop on the lines [stdin]: the calls made, how the
    loop ends, and the lines left unread. *)
Fixpoint loop (optimizer : PromptOptimizer) (stdin : list str)
  : list event * ending * list str :=
  match stdin with
  | [] => ([Input ask], EOFError, [])
  | user_input :: rest =>
      if Str.eqb (lower user_input) (u "quit")
      then ([Input ask], Break, rest)
      else
        let result := optimize_prompt optimizer user_input in
        let '(events, e, unread) := loop optimizer rest in
        (Input ask :: Print result_title :: Print result :: events,
         e, unread)
  end.


End Loop.

(** [str.lower] on the characters below 128: the capital letters move to
    the small ones. *)
Definition ascii_lower (c : char) : char :=
  if ((65 <=? c) && (c <=? 90))%N then (c + 32)%N else c.



End Main.

(** ** Shapes of extracted text *)

(** Neither the first nor the last character is white space. *)
Definition trimmed (s : str) : Prop :=
  (forall c r, s = c :: r -> isspace c = false) /\
  (forall c r, s = r ++ [c] -> isspace c = false).

(** No comma, no period and no newline. *)
Definition clean (s : str) : Prop :=
  contains comma s = false /\ contains period s = false /\ ~ In newline s.

(** The shape of a context that an indicator gives. *)
Definition context_shape (prompt c : str) : Prop :=
  exists indicator body pre post,
    In indicator context_indicators /\
    c = indicator ++ body ++ period /\
    contains period (indicator ++ body) = false /\
    prompt = pre ++ c ++ post.

(** The lead-ins of the task patterns, in table order. *)
Definition task_leads : list str := Eval vm_compute in
  [u "帮我"; u "请"; u "需要"; u "想要"].

(** The names of the fields of [PromptStructure], in declaration order. *)
Definition field_names : list str := Eval vm_compute in
  [u "role"; u "task"; u "context"; u "requirements"; u "format";
   u "examples"; u "constraints"; u "tone"; u "prompt_type"].
(** ** The models of the library functions on small inputs *)

Example strip_example : strip (u "  写 报告　") = u "写 报告".
Proof. reflexivity. Qed.

Example split_example :
  split (u "甲。乙。。丙") period = [u "甲"; u "乙"; u ""; u "丙"].
Proof. reflexivity. Qed.

Example find_example :
  find (u "情况。背景。") period 3 = Some 5 /\
  find (u "情况。背景") period 3 = None.
Proof. split; reflexivity. Qed.

(** [search] takes the leftmost match and the shortest group. *)
Example search_example :
  search (lead_pattern (u "请")) (u "你好，请坐。请喝茶") =
  Some (mkMatch 3 6 (Some (u "坐"))).
Proof. reflexivity. Qed.

(** The end of the text closes a group, also before a final newline; a
    newline inside the text does not. *)
Example search_newline_example :
  let nl := [newline] in
  search (lead_pattern (u "请")) (u "请坐" ++ nl) =
    Some (mkMatch 0 2 (Some (u "坐"))) /\
  search (lead_pattern (u "请")) (u "请坐" ++ nl ++ u "谢谢") = None.
Proof. split; reflexivity. Qed.

Example findall_example :
  findall (lead_pattern (u "需要")) (u "需要图表，需要目录。还需要索引") =
  [u "图表"; u "目录"; u "索引"].
Proof. reflexivity. Qed.

Example dumps_example :
  dumps (JObject [(u "a", JArray [JString (u "b"); JString [quote]]);
                  (u "c", JArray [])]) =
  u "{" ++ [newline] ++ u "  " ++ [quote] ++ u "a" ++ [quote] ++ u ": ["
  ++ [newline] ++ u "    " ++ [quote] ++ u "b" ++ [quote] ++ u ","
  ++ [newline] ++ u "    " ++ [quote; backslash; quote; quote]
  ++ [newline] ++ u "  ]," ++ [newline] ++ u "  " ++ [quote] ++ u "c"
  ++ [quote] ++ u ": []" ++ [newline] ++ u "}".
Proof. reflexivity. Qed.

Example loads_example :
  loads (u " { } ") = Some (JObject []) /\
  loads (u "[[],{}] ") = Some (JArray [JArray []; JObject []]) /\
  loads (u "[ ") = None.
Proof. repeat split; reflexivity. Qed.

(** ** Facts about the string operations *)

Lemma str_eqb_spec (a b : str) : Str.eqb a b = true <-> a = b.
Proof.
  revert b; induction a as [|x a IH]; intros [|y b]; simpl;
    try (split; [discriminate | congruence]); try tauto.
  rewrite andb_true_iff, N.eqb_eq, IH. split.
  - intros [-> ->]; reflexivity.
  - intros E; injection E; auto.
Qed.

Lemma str_eqb_refl (a : str) : Str.eqb a a = true.
Proof. apply str_eqb_spec; reflexivity. Qed.

Lemma strip_prefix_Some (p s r : str) :
  strip_prefix p s = Some r <-> s = p ++ r.
Proof.
  revert s; induction p as [|x p IH]; intros s; simpl.
  - split; congruence.
  - destruct s as [|y s]; [split; discriminate|].
    destruct (N.eqb_spec x y) as [->|Hne].
    + rewrite IH. split; [intros ->; reflexivity | intros E; injection E; auto].
    + split; [discriminate | intros E; injection E; intros; congruence].
Qed.

Lemma strip_prefix_app (p r : str) : strip_prefix p (p ++ r) = Some r.
Proof. apply strip_prefix_Some; reflexivity. Qed.


Lemma find_zero (s sub : str) : find s sub 0 = find_from sub s 0.
Proof. reflexivity. Qed.

Lemma find_from_ge (sub s : str) (k i : nat) :
  find_from sub s k = Some i -> k <= i.
Proof.
  revert k; induction s as [|c s IH]; intros k; simpl.
  - destruct (startswith [] sub); [intros E; injection E; lia | discriminate].
  - destruct (startswith (c :: s) sub).
    + intros E; injection E; lia.
    + intros E; apply IH in E; lia.
Qed.

(** The first piece of a split is the text before the first separator. *)
Lemma split_go_first (sep s cur : str) (k i : nat) :
  sep <> [] ->
  find_from sep s k = Some (k + i) ->
  nth 0 (split_go sep s cur 0) [] = rev cur ++ firstn i s.
Proof.
  intros Hsep; revert cur k i; induction s as [|c s IH]; intros cur k i; simpl.
  - destruct sep as [|x sep]; [contradiction|]. discriminate.
  - destruct (startswith (c :: s) sep) eqn:Hp.
    + intros E; injection E; intros E'.
      assert (i = 0) by lia; subst i. simpl. now rewrite app_nil_r.
    + intros E. destruct i as [|i].
      * apply find_from_ge in E; lia.
      * replace (k + S i) with (S k + i) in E by lia.
        rewrite (IH (c :: cur) (S k) i E). simpl.
        now rewrite <- app_assoc.
Qed.

Lemma split_first (s sep : str) (i : nat) :
  sep <> [] ->
  find s sep 0 = Some i ->
  nth 0 (split s sep) [] = firstn i s.
Proof.
  intros Hsep E. rewrite find_zero in E.
  apply (@split_go_first sep s [] 0 i Hsep E).
Qed.

Lemma contains_find (sub s : str) :
  contains sub s = true <-> exists i, find s sub 0 = Some i.
Proof.
  unfold contains. destruct (find s sub 0) as [i|].
  - split; [eauto | reflexivity].
  - split; [discriminate | intros [i E]; discriminate].
Qed.

Lemma contains_false_find (sub s : str) :
  contains sub s = false <-> find s sub 0 = None.
Proof.
  unfold contains. destruct (find s sub 0); split; congruence.
Qed.

Lemma lstrip_suffix (s : str) : exists p, s = p ++ lstrip s.
Proof.
  induction s as [|c s [p IH]]; [now exists []|].
  cbn [lstrip]. destruct (isspace c).
  - exists (c :: p). simpl. now rewrite <- IH.
  - now exists [].
Qed.

Lemma lstrip_head (s : str) (c : char) (r : str) :
  lstrip s = c :: r -> isspace c = false.
Proof.
  induction s as [|x s IH]; cbn [lstrip]; [discriminate|].
  destruct (isspace x) eqn:E; [exact IH|].
  intros H; injection H as <- <-. exact E.
Qed.

Lemma lstrip_nil (s : str) : lstrip s = [] <-> blank s = true.
Proof.
  unfold blank. induction s as [|c s IH]; cbn [lstrip forallb]; [tauto|].
  destruct (isspace c); cbn [andb]; [exact IH|].
  split; discriminate.
Qed.

Lemma blank_rev (s : str) : blank (rev s) = blank s.
Proof.
  unfold blank. induction s as [|c s IH]; [reflexivity|].
  cbn [rev forallb]. rewrite forallb_app, IH. cbn [forallb].
  rewrite andb_true_r. apply andb_comm.
Qed.

(** [strip] leaves nothing exactly of a text that is white space
    throughout. *)
Lemma strip_nil (s : str) : strip s = [] <-> blank s = true.
Proof.
  unfold strip, rstrip. split.
  - intros H. apply (f_equal (@rev char)) in H.
    rewrite rev_involutive in H. cbn [rev] in H.
    apply lstrip_nil in H. rewrite blank_rev in H.
    destruct (lstrip s) as [|c r] eqn:E; [now apply lstrip_nil|].
    apply lstrip_head in E. unfold blank in H. cbn [forallb] in H.
    rewrite E in H. discriminate H.
  - intros H. apply lstrip_nil in H. rewrite H. reflexivity.
Qed.

(** ** Facts about the loops *)

Lemma first_hit_in (table : list (str * str)) (prompt keyword tag : str) :
  first_hit table prompt = Some (keyword, tag) ->
  In (keyword, tag) table /\ contains keyword prompt = true.
Proof.
  induction table as [|[k v] table IH]; simpl; [discriminate|].
  destruct (contains k prompt) eqn:E.
  - intros H; injection H; intros <- <-; auto.
  - intros H; destruct (IH H); auto.
Qed.

Lemma task_loop_first (before after : list regex) (pattern : regex)
  (prompt : str) (m : Match) :
  (forall p, In p before -> search p prompt = None) ->
  search pattern prompt = Some m ->
  task_loop (before ++ pattern :: after) prompt = Some (strip (group1 m)).
Proof.
  intros Hb Hm; induction before as [|p before IH]; simpl.
  - now rewrite Hm.
  - rewrite (Hb p (or_introl eq_refl)). apply IH.
    intros q Hq; apply Hb; now right.
Qed.

Lemma task_loop_none (patterns : list regex) (prompt : str) :
  (forall p, In p patterns -> search p prompt = None) <->
  task_loop patterns prompt = None.
Proof.
  induction patterns as [|p patterns IH]; simpl.
  - split; [reflexivity | intros _ p []].
  - split.
    + intros H. rewrite (H p (or_introl eq_refl)). apply IH.
      intros q Hq; apply H; now right.
    + destruct (search p prompt) eqn:E; [discriminate|].
      intros H q [<-|Hq]; [assumption | now apply IH].
Qed.

Lemma requirements_loop_app (patterns : list regex) (prompt : str)
  (acc : list str) :
  requirements_loop patterns prompt acc =
  acc ++ flat_map (fun p => map strip (findall p prompt)) patterns.
Proof.
  revert acc; induction patterns as [|p patterns IH]; intros acc; simpl.
  - now rewrite app_nil_r.
  - now rewrite IH, app_assoc.
Qed.

Lemma dict_get_cases (A : Type) (mapping : list (str * A)) (key : str)
  (default : A) :
  dict_get mapping key default = default \/
  In (dict_get mapping key default) (map snd mapping).
Proof.
  induction mapping as [|[k v] mapping IH]; simpl; [now left|].
  destruct (Str.eqb k key); [right; now left|].
  destruct IH; [now left | right; now right].
Qed.

Lemma classify_cases (self : PromptOptimizer) (prompt : str) :
  In (_classify_prompt_type self prompt) prompt_type_values.
Proof.
  unfold _classify_prompt_type.
  destruct (any_in creative_keywords prompt); [simpl; tauto|].
  destruct (any_in analytical_keywords prompt); [simpl; tauto|].
  destruct (any_in instructional_keywords prompt); simpl; tauto.
Qed.


Lemma extract_format_in (prompt : str) :
  In (_extract_format __init__ prompt) format_values.
Proof.
  unfold _extract_format. simpl first_hit.
  repeat (destruct (contains _ prompt); [simpl; tauto|]). simpl; tauto.
Qed.

Lemma extract_tone_in (prompt : str) :
  In (_extract_tone __init__ prompt) tone_values.
Proof.
  unfold _extract_tone. simpl first_hit.
  repeat (destruct (contains _ prompt); [simpl; tauto|]). simpl; tauto.
Qed.

Lemma generate_examples_length (self : PromptOptimizer) (t : str) :
  List.length (_generate_examples self t) = 1.
Proof.
  unfold _generate_examples.
  generalize (dict_get_cases examples_map t [u "提供相关示例"]).
  generalize (dict_get examples_map t [u "提供相关示例"]).
  intros r [-> | H]; [reflexivity|].
  cbv [examples_map map snd In] in H.
  repeat (destruct H as [<- | H]; [reflexivity|]). destruct H.
Qed.

Lemma generate_constraints_length (self : PromptOptimizer) (t : str) :
  List.length (_generate_constraints self t) = 2.
Proof.
  unfold _generate_constraints.
  generalize (dict_get_cases constraints_map t
                [u "遵循基本原则"; u "确保内容准确"]).
  generalize (dict_get constraints_map t
                [u "遵循基本原则"; u "确保内容准确"]).
  intros r [-> | H]; [reflexivity|].
  cbv [constraints_map map snd In] in H.
  repeat (destruct H as [<- | H]; [reflexivity|]). destruct H.
Qed.

Lemma find_from_here (sub s : str) (k : nat) :
  find_from sub s k = Some k <-> startswith s sub = true.
Proof.
  destruct s as [|c s]; simpl.
  - destruct (startswith [] sub); split; congruence.
  - destruct (startswith (c :: s) sub); [tauto|].
    split; [|discriminate]. intros E; apply find_from_ge in E; lia.
Qed.

Lemma startswith_contains (sub s : str) :
  startswith s sub = true -> contains sub s = true.
Proof.
  intros H. apply contains_find. exists 0. rewrite find_zero.
  now apply find_from_here.
Qed.

(** When the task patterns fail, the task is empty exactly for an empty
    prompt and for a prompt that begins with a period. *)
Lemma fallback_task_empty (self : PromptOptimizer) (prompt : str) :
  task_loop (task_patterns self) prompt = None ->
  (_extract_task self prompt = [] <->
   prompt = [] \/ startswith prompt period = true).
Proof.
  intros Hn. unfold _extract_task. rewrite Hn.
  destruct (contains period prompt) eqn:Hc.
  - destruct (proj1 (contains_find _ _) Hc) as [i Hi].
    rewrite (@split_first prompt period i); [|discriminate|assumption].
    split.
    + intros E. right. apply (find_from_here period prompt 0).
      rewrite <- find_zero, Hi. f_equal.
      destruct i as [|i]; [reflexivity|].
      destruct prompt; [discriminate Hc | discriminate E].
    + intros [-> | Hs]; [discriminate Hc|].
      apply (find_from_here period prompt 0) in Hs.
      rewrite <- find_zero, Hi in Hs. injection Hs as ->. reflexivity.
  - split; [now left|]. intros [E | Hs]; [assumption|].
    apply startswith_contains in Hs. congruence.
Qed.

Lemma context_loop_empty (indicators : list str) (prompt : str) :
  (forall indicator start,
      In indicator indicators ->
      find prompt indicator 0 = Some start ->
      find prompt period start = None) ->
  context_loop indicators prompt = [].
Proof.
  induction indicators as [|ind indicators IH]; intros H; simpl;
    [reflexivity|].
  assert (IH' : context_loop indicators prompt = []).
  { apply IH. intros i s Hi. apply H. now right. }
  destruct (contains ind prompt); [|assumption].
  destruct (find prompt ind 0) as [start|] eqn:E; [|assumption].
  now rewrite (H ind start (or_introl eq_refl) E).
Qed.

Lemma context_loop_first (before after : list str) (indicator prompt : str)
  (start end_ : nat) :
  (forall b s, In b before ->
               find prompt b 0 = Some s -> find prompt period s = None) ->
  find prompt indicator 0 = Some start ->
  find prompt period start = Some end_ ->
  context_loop (before ++ indicator :: after) prompt =
  slice prompt start (end_ + 1).
Proof.
  intros Hb Hs He. induction before as [|b before IH]; simpl.
  - assert (Hc : contains indicator prompt = true)
      by (apply contains_find; eauto).
    now rewrite Hc, Hs, He.
  - assert (IH' : context_loop (before ++ indicator :: after) prompt =
                  slice prompt start (end_ + 1)).
    { apply IH. intros b' s Hin. apply Hb. now right. }
    destruct (contains b prompt); [|assumption].
    destruct (find prompt b 0) as [s|] eqn:E; [|assumption].
    now rewrite (Hb b s (or_introl eq_refl) E).
Qed.

(** ** The lead patterns against their direct reading *)

Lemma lazy_any_ext (k1 k2 : kont) (s : str) (g : option str) :
  (forall s' g', k1 s' g' = k2 s' g') ->
  lazy_any s g k1 = lazy_any s g k2.
Proof.
  intros H; induction s as [|c s IH]; simpl; rewrite H.
  - reflexivity.
  - destruct (k2 (c :: s) g); [reflexivity|].
    destruct (c =? newline)%N; [reflexivity | apply IH].
Qed.

Lemma rmatch_terminator (s : str) (g : option str) :
  rmatch (Alt (Lit comma) (Alt (Lit period) AtEnd)) s g
    (fun s' g' => Some (s', g')) =
  match terminator s with
  | Some rest => Some (rest, g)
  | None => None
  end.
Proof.
  unfold terminator. cbn [rmatch].
  destruct (strip_prefix comma s); [reflexivity|].
  destruct (strip_prefix period s); [reflexivity|].
  destruct (at_end s); reflexivity.
Qed.

Lemma length_app_minus (pre t : str) :
  firstn (List.length (pre ++ t) - List.length t) (pre ++ t) = pre.
Proof.
  rewrite length_app.
  replace (List.length pre + List.length t - List.length t)
    with (List.length pre + 0) by lia.
  rewrite firstn_app_2. simpl. apply app_nil_r.
Qed.

Lemma lazy_any_capture (t pre : str) (g : option str) :
  lazy_any t g
    (fun s' _ =>
       match terminator s' with
       | Some rest =>
           Some (rest,
                 Some (firstn (List.length (pre ++ t) - List.length s')
                         (pre ++ t)))
       | None => None
       end) =
  match capture t with
  | Some (body, rest) => Some (rest, Some (pre ++ body))
  | None => None
  end.
Proof.
  revert pre; induction t as [|c t IH]; intros pre.
  - simpl. rewrite app_nil_r, Nat.sub_0_r, firstn_all. reflexivity.
  - cbn [lazy_any capture].
    destruct (terminator (c :: t)) as [rest|].
    + rewrite length_app_minus, app_nil_r. reflexivity.
    + destruct (c =? newline)%N; [reflexivity|].
      specialize (IH (pre ++ [c])).
      rewrite <- app_assoc in IH. simpl in IH.
      rewrite IH. destruct (capture t) as [[body rest]|]; [|reflexivity].
      now rewrite <- app_assoc.
Qed.

(** One attempt of a lead pattern: the lead-in, then the captured text. *)
Lemma match_at_lead_pattern (lead s : str) :
  match_at false (lead_pattern lead) s =
  match strip_prefix lead s with
  | Some t =>
      match capture t with
      | Some (body, rest) => Some (rest, Some body)
      | None => None
      end
  | None => None
  end.
Proof.
  unfold match_at, lead_pattern. cbn [rmatch andb].
  destruct (strip_prefix lead s) as [t|]; [|reflexivity].
  pose proof (lazy_any_capture t [] None) as H. cbn [app] in H.
  etransitivity; [|exact H]. apply lazy_any_ext. intros s' g'.
  change (rmatch (Alt (Lit comma) (Alt (Lit period) AtEnd)) s'
            (Some (firstn (List.length t - List.length s') t))
            (fun s'' g'' => Some (s'', g'')) =
          match terminator s' with
          | Some rest =>
              Some (rest, Some (firstn (List.length t - List.length s') t))
          | None => None
          end).
  apply rmatch_terminator.
Qed.

Lemma terminator_suffix (s rest : str) :
  terminator s = Some rest -> exists x, s = x ++ rest.
Proof.
  unfold terminator.
  destruct (strip_prefix comma s) as [r|] eqn:E1.
  - intros H; injection H as ->. apply strip_prefix_Some in E1. eauto.
  - destruct (strip_prefix period s) as [r|] eqn:E2.
    + intros H; injection H as ->. apply strip_prefix_Some in E2. eauto.
    + destruct (at_end s); [|discriminate].
      intros H; injection H as ->. now exists [].
Qed.

Lemma capture_split (s body rest : str) :
  capture s = Some (body, rest) -> exists x, s = body ++ x ++ rest.
Proof.
  revert body; induction s as [|c s IH]; intros body; cbn [capture].
  - destruct (terminator []) as [r|] eqn:E.
    + intros H; injection H as <- <-.
      destruct (terminator_suffix _ E) as [x Hx]. now exists x.
    + discriminate.
  - destruct (terminator (c :: s)) as [r|] eqn:E.
    + intros H; injection H as <- <-.
      destruct (terminator_suffix _ E) as [x Hx]. now exists x.
    + destruct (c =? newline)%N; [discriminate|].
      destruct (capture s) as [[b r]|]; [|discriminate].
      intros H; injection H as <- <-.
      destruct (IH b eq_refl) as [x ->]. now exists x.
Qed.

(** The captured text holds no comma, no period and no newline. *)
Lemma capture_body (s body rest : str) :
  capture s = Some (body, rest) ->
  forall c, In c body ->
            c <> newline /\ [c] <> comma /\ [c] <> period.
Proof.
  revert body; induction s as [|c s IH]; intros body; cbn [capture].
  - destruct (terminator []); [|discriminate].
    intros H; injection H as <- <-. intros c [].
  - destruct (terminator (c :: s)) as [r|] eqn:E.
    + intros H; injection H as <- <-. intros c' [].
    + destruct (N.eqb_spec c newline) as [|Hn]; [discriminate|].
      destruct (capture s) as [[b r]|]; [|discriminate].
      intros H; injection H as <- <-. intros c' [<- | Hin].
      * split; [assumption|]. unfold terminator in E. simpl in E.
        split; intros Hc; injection Hc as ->; simpl in E; discriminate E.
      * now apply (IH b).
Qed.

(** Group 1 takes part in every match of a lead pattern. *)
Lemma search_from_lead_group (lead s : str) (pos : nat) (m : Match) :
  search_from (lead_pattern lead) s pos = Some m ->
  exists body, m_group1 m = Some body.
Proof.
  revert pos; induction s as [|c s IH]; intros pos; cbn [search_from];
    rewrite match_at_lead_pattern.
  - destruct (strip_prefix lead []) as [t|]; [|discriminate].
    destruct (capture t) as [[body rest]|]; [|discriminate].
    intros H; injection H as <-. cbn [m_group1]. eauto.
  - destruct (strip_prefix lead (c :: s)) as [t|].
    + destruct (capture t) as [[body rest]|].
      * intros H; injection H as <-. cbn [m_group1]. eauto.
      * apply IH.
    + apply IH.
Qed.

(** A match of a lead pattern passes the lead-in, so it is not empty, and
    what it leaves is the text from its end on. *)
Definition advances (r : regex) : Prop :=
  forall s rest g,
    match_at false r s = Some (rest, g) ->
    exists n, consumed s rest = S n /\ rest = skipn (S n) s.

Lemma lead_pattern_advances (lead : str) :
  lead <> [] -> advances (lead_pattern lead).
Proof.
  intros Hl s rest g. rewrite match_at_lead_pattern.
  destruct (strip_prefix lead s) as [t|] eqn:E; [|discriminate].
  apply strip_prefix_Some in E. subst s.
  destruct (capture t) as [[body r]|] eqn:Ec; [|discriminate].
  intros H; injection H as <- <-.
  destruct (capture_split _ Ec) as [x ->].
  destruct lead as [|l lead]; [contradiction|].
  exists (List.length lead + List.length body + List.length x).
  unfold consumed. split.
  - rewrite !length_app. cbn [List.length]. lia.
  - replace (S (List.length lead + List.length body + List.length x))
      with (List.length ((l :: lead) ++ body ++ x))
      by (rewrite !length_app; cbn [List.length]; lia).
    replace ((l :: lead) ++ body ++ x ++ r)
      with (((l :: lead) ++ body ++ x) ++ r)
      by (now rewrite <- !app_assoc).
    rewrite skipn_app, skipn_all, Nat.sub_diag. reflexivity.
Qed.

Lemma findall_go_skip (r : regex) (n : nat) (s : str) :
  n <= List.length s ->
  findall_go r s n = findall_go r (skipn n s) 0.
Proof.
  revert s; induction n as [|n IH]; intros s Hn; [reflexivity|].
  destruct s as [|c s]; [simpl in Hn; lia|].
  simpl in Hn. simpl findall_go at 1. simpl skipn. apply IH. lia.
Qed.

Lemma search_from_end (r : regex) (s : str) (pos : nat) (m : Match) :
  search_from r s pos = Some m -> pos <= m_end m.
Proof.
  revert pos; induction s as [|c s IH]; intros pos; simpl.
  - destruct (match_at false r []) as [[rest g]|]; [|discriminate].
    intros H; injection H as <-. simpl; lia.
  - destruct (match_at false r (c :: s)) as [[rest g]|].
    + intros H; injection H as <-. simpl; lia.
    + intros H; apply IH in H. lia.
Qed.

(** [findall] is the first match of [search], then [findall] on what
    follows that match. *)
Lemma findall_go_search (r : regex) (s : str) (pos : nat) :
  advances r ->
  findall_go r s 0 =
  match search_from r s pos with
  | None => []
  | Some m => group1 m :: findall_go r (skipn (m_end m - pos) s) 0
  end.
Proof.
  intros Ha. revert pos; induction s as [|c s IH]; intros pos.
  - simpl. destruct (match_at false r []) as [[rest g]|] eqn:E;
      [|reflexivity].
    destruct (Ha _ _ _ E) as [n [Hn _]]. unfold consumed in Hn.
    simpl in Hn. lia.
  - cbn [findall_go search_from].
    destruct (match_at false r (c :: s)) as [[rest g]|] eqn:E.
    + destruct (Ha _ _ _ E) as [n [Hn Hr]]. rewrite Hn.
      unfold group1. cbn [m_group1 m_end]. f_equal.
      replace (pos + S n - pos) with (S n) by lia.
      assert (Hle : n <= List.length s).
      { unfold consumed in Hn. cbn [List.length] in Hn. lia. }
      rewrite (@findall_go_skip r n s Hle). reflexivity.
    + rewrite (IH (S pos)).
      destruct (search_from r s (S pos)) as [m|] eqn:Es; [|reflexivity].
      apply search_from_end in Es.
      replace (m_end m - pos) with (S (m_end m - S pos)) by lia.
      reflexivity.
Qed.

Lemma findall_search (r : regex) (s : str) :
  advances r ->
  findall r s =
  match search r s with
  | None => []
  | Some m => group1 m :: findall r (skipn (m_end m) s)
  end.
Proof.
  intros Ha. unfold findall, search. rewrite (@findall_go_search r s 0 Ha).
  destruct (search_from r s 0); [|reflexivity].
  now rewrite Nat.sub_0_r.
Qed.

(** ** Reading back what [dumps] prints *)

(** Induction on [json], with the hypothesis on every element. *)
Fixpoint json_induction (P : json -> Prop)
  (Hs : forall s, P (JString s))
  (Ha : forall l, Forall P l -> P (JArray l))
  (Ho : forall d, Forall (fun kv => P (snd kv)) d -> P (JObject d))
  (v : json) : P v :=
  match v with
  | JString s => Hs s
  | JArray l =>
      Ha l ((fix all (l : list json) : Forall P l :=
               match l with
               | [] => Forall_nil P
               | x :: r =>
                   Forall_cons x (json_induction Hs Ha Ho x) (all r)
               end) l)
  | JObject d =>
      Ho d ((fix all (d : list (str * json))
               : Forall (fun kv => P (snd kv)) d :=
               match d with
               | [] => Forall_nil _
               | kv :: r =>
                   Forall_cons kv (json_induction Hs Ha Ho (snd kv)) (all r)
               end) d)
  end.

Lemma scanstring_escape_char (c : char) (tail : str) :
  scanstring (escape c ++ tail) = cons_to c (scanstring tail).
Proof.
  destruct (N.ltb_spec c 32) as [Hlt | Hge].
  - assert (E : c = N.of_nat (N.to_nat c)) by (now rewrite N2Nat.id).
    assert (Hn : N.to_nat c < 32) by lia.
    rewrite E. generalize dependent (N.to_nat c). intros n _ Hn.
    do 32 (destruct n as [|n]; [reflexivity|]). lia.
  - unfold escape.
    destruct (N.eqb_spec c backslash) as [->|Hb]; [reflexivity|].
    destruct (N.eqb_spec c quote) as [->|Hq]; [reflexivity|].
    destruct (N.eqb_spec c 8); [lia|].
    destruct (N.eqb_spec c 12); [lia|].
    destruct (N.eqb_spec c 10); [lia|].
    destruct (N.eqb_spec c 13); [lia|].
    destruct (N.eqb_spec c 9); [lia|].
    destruct (N.ltb_spec c 32); [lia|].
    cbn [app scanstring].
    destruct (N.eqb_spec c quote); [contradiction|].
    destruct (N.eqb_spec c backslash); [contradiction|].
    destruct (N.ltb_spec c 32); [lia | reflexivity].
Qed.

Lemma scanstring_escape (s rest : str) :
  scanstring (flat_map escape s ++ quote :: rest) = Some (s, rest).
Proof.
  induction s as [|c s IH]; [reflexivity|].
  cbn [flat_map]. rewrite <- app_assoc, scanstring_escape_char, IH.
  reflexivity.
Qed.

Lemma skip_ws_stop (c : char) (s : str) :
  is_ws c = false -> skip_ws (c :: s) = c :: s.
Proof. intros H; simpl; now rewrite H. Qed.

Lemma skip_ws_newline_indent (level : nat) (s : str) :
  skip_ws (newline_indent level ++ s) = skip_ws s.
Proof.
  unfold newline_indent. cbn [app skip_ws is_ws N.eqb orb Pos.eqb].
  induction level as [|level IH]; [reflexivity|].
  cbn [repeat_str app skip_ws]. exact IH.
Qed.

(** An encoding begins with a quote, a bracket or a brace. *)
Definition opener (c : char) : Prop :=
  c = quote \/ c = lbracket \/ c = lbrace.

Lemma opener_not_ws (c : char) : opener c -> is_ws c = false.
Proof. intros [-> | [-> | ->]]; reflexivity. Qed.

Lemma iterencode_head (v : json) (level : nat) :
  exists c tail, iterencode v level = c :: tail /\ opener c.
Proof.
  unfold opener. destruct v as [s | [|x l] | [|kv d]]; cbn [iterencode app];
    eauto 6.
  unfold encode_basestring; eauto 6.
Qed.

Lemma skip_ws_iterencode (v : json) (level : nat) (s : str) :
  skip_ws (iterencode v level ++ s) = iterencode v level ++ s.
Proof.
  destruct (iterencode_head v level) as (c & tail & -> & Hc).
  apply skip_ws_stop, opener_not_ws, Hc.
Qed.

Lemma dict_set_fresh (d : list (str * json)) (key : str) (v : json) :
  ~ In key (map fst d) -> dict_set d key v = d ++ [(key, v)].
Proof.
  induction d as [|[k w] d IH]; intros Hn; [reflexivity|].
  simpl in *. destruct (Str.eqb k key) eqn:E.
  - apply str_eqb_spec in E. tauto.
  - rewrite IH; [reflexivity | tauto].
Qed.

Lemma dict_of_fold (pairs acc : list (str * json)) :
  NoDup (map fst (acc ++ pairs)) ->
  fold_left (fun d kv => dict_set d (fst kv) (snd kv)) pairs acc
  = acc ++ pairs.
Proof.
  revert acc; induction pairs as [|[k v] pairs IH]; intros acc Hn.
  - now rewrite app_nil_r.
  - cbn [fold_left fst snd]. rewrite dict_set_fresh.
    + rewrite IH; rewrite <- app_assoc; [reflexivity | exact Hn].
    + rewrite map_app in Hn. cbn [map fst] in Hn.
      apply NoDup_remove_2 in Hn. intros Hin. apply Hn.
      apply in_or_app. now left.
Qed.

Lemma dict_of_nodup (pairs : list (str * json)) :
  NoDup (map fst pairs) -> dict_of pairs = pairs.
Proof. intros Hn. apply (dict_of_fold pairs [] Hn). Qed.

(** [scan_once] reads the encoding of [v] back, given fuel for its
    length. *)
Definition parses (v : json) : Prop :=
  forall level fuel rest,
    List.length (iterencode v level) <= fuel ->
    scan_once fuel (iterencode v level ++ rest) = Some (v, rest).

Lemma cons_eq (A : Type) (x y : A) (l m : list A) :
  x :: l = y :: m -> x = y /\ l = m.
Proof. intros H; injection H; auto. Qed.

Lemma join_two (sep a b : str) (r : list str) :
  join sep (a :: b :: r) = a ++ sep ++ join sep (b :: r).
Proof. reflexivity. Qed.

Lemma scan_once_S (fuel : nat) (c : char) (r : str) :
  scan_once (S fuel) (c :: r) =
  if (c =? quote)%N then
    match scanstring r with
    | Some (t, rest) => Some (JString t, rest)
    | None => None
    end
  else if (c =? lbrace)%N then
    match skip_ws r with
    | c1 :: r1 =>
        if (c1 =? rbrace)%N then Some (JObject [], r1)
        else if (c1 =? quote)%N then
          match object_members fuel r1 with
          | Some (pairs, rest) => Some (JObject (dict_of pairs), rest)
          | None => None
          end
        else None
    | [] => None
    end
  else if (c =? lbracket)%N then
    match skip_ws r with
    | c1 :: r1 =>
        if (c1 =? rbracket)%N then Some (JArray [], r1)
        else
          match array_items fuel (c1 :: r1) with
          | Some (values, rest) => Some (JArray values, rest)
          | None => None
          end
    | [] => None
    end
  else None.
Proof. reflexivity. Qed.

Lemma array_items_S (fuel : nat) (s : str) :
  array_items (S fuel) s =
  match scan_once fuel s with
  | None => None
  | Some (v, rest) =>
      match skip_ws rest with
      | c :: r =>
          if (c =? rbracket)%N then Some ([v], r)
          else if (c =? comma_char)%N then
            match array_items fuel (skip_ws r) with
            | Some (values, rest') => Some (v :: values, rest')
            | None => None
            end
          else None
      | [] => None
      end
  end.
Proof. reflexivity. Qed.

Lemma object_members_S (fuel : nat) (s : str) :
  object_members (S fuel) s =
  match scanstring s with
  | None => None
  | Some (key, rest) =>
      match skip_ws rest with
      | c :: r =>
          if (c =? colon)%N then
            match scan_once fuel (skip_ws r) with
            | None => None
            | Some (v, rest1) =>
                match skip_ws rest1 with
                | c1 :: r1 =>
                    if (c1 =? rbrace)%N then Some ([(key, v)], r1)
                    else if (c1 =? comma_char)%N then
                      match skip_ws r1 with
                      | c2 :: r2 =>
                          if (c2 =? quote)%N then
                            match object_members fuel r2 with
                            | Some (pairs, rest') =>
                                Some ((key, v) :: pairs, rest')
                            | None => None
                            end
                          else None
                      | [] => None
                      end
                    else None
                | [] => None
                end
            end
          else None
      | [] => None
      end
  end.
Proof. reflexivity. Qed.

Section Items.

Variable level : nat.

Local Abbreviation sep := (separator level).
Local Abbreviation enc := (fun v : json => iterencode v level).

Lemma separator_length : 1 <= List.length sep.
Proof.
  unfold separator. rewrite length_app. cbn [List.length item_separator]. lia.
Qed.

Lemma skip_ws_separator (s : str) : skip_ws (sep ++ s) = sep ++ s.
Proof. reflexivity. Qed.

Lemma skip_ws_items (l : list json) (s : str) :
  l <> [] ->
  skip_ws (join sep (map enc l) ++ s) = join sep (map enc l) ++ s.
Proof.
  destruct l as [|x [|y l]]; intros H; [contradiction| |].
  - apply skip_ws_iterencode.
  - cbn [map]. rewrite join_two, <- app_assoc. apply skip_ws_iterencode.
Qed.

Lemma array_items_join (lvl0 : nat) (l : list json) :
  l <> [] ->
  Forall parses l ->
  forall fuel rest,
    List.length (join sep (map enc l)) < fuel ->
    array_items fuel
      (join sep (map enc l) ++ newline_indent lvl0 ++ rbracket :: rest)
    = Some (l, rest).
Proof.
  induction l as [|x l IH]; [contradiction|].
  intros _ Hall fuel rest Hf.
  inversion Hall as [|x' l' Hx Hl]; subst x' l'.
  destruct fuel as [|f]; [lia|]. rewrite array_items_S.
  destruct l as [|y l].
  - cbn [map join] in *.
    rewrite (Hx level f _ ltac:(lia)).
    rewrite skip_ws_newline_indent. reflexivity.
  - cbn [map] in *. rewrite join_two in *. rewrite !length_app in Hf.
    pose proof separator_length as Hs.
    rewrite <- !app_assoc.
    rewrite (Hx level f _ ltac:(lia)).
    rewrite skip_ws_separator.
    change (sep ++ ?s) with (comma_char :: newline_indent level ++ s).
    cbv iota.
    change (comma_char =? rbracket)%N with false.
    change (comma_char =? comma_char)%N with true. cbv iota.
    rewrite skip_ws_newline_indent.
    change (iterencode y level :: map enc l) with (map enc (y :: l)).
    rewrite skip_ws_items by discriminate.
    rewrite IH; [reflexivity | discriminate | assumption |].
    cbn [map]. lia.
Qed.

End Items.

Section Members.

Variable level : nat.

Local Abbreviation sep := (separator level).
Local Abbreviation encm := (member (fun v : json => iterencode v level)).

Lemma members_head (d : list (str * json)) :
  d <> [] -> exists tail, join sep (map encm d) = quote :: tail.
Proof.
  destruct d as [|[k v] [|kv d]]; intros H; [contradiction| |].
  - cbn [map join member encode_basestring app]. eauto.
  - cbn [map]. rewrite join_two. cbn [member encode_basestring app]. eauto.
Qed.

Lemma member_parse (k : str) (v : json) (f : nat) (s : str) :
  parses v ->
  List.length (iterencode v level) <= f ->
  forall tail,
    encm (k, v) = quote :: tail ->
    scanstring (tail ++ s) =
      Some (k, colon :: space :: iterencode v level ++ s) /\
    scan_once f (iterencode v level ++ s) = Some (v, s).
Proof.
  intros Hv Hf tail Ht. split; [|now apply Hv].
  cbn [member encode_basestring app] in Ht. injection Ht as <-.
  rewrite <- !app_assoc. cbn [app]. rewrite scanstring_escape.
  reflexivity.
Qed.

Lemma object_members_join (lvl0 : nat) (d : list (str * json)) :
  d <> [] ->
  Forall (fun kv => parses (snd kv)) d ->
  forall fuel rest tail,
    List.length (join sep (map encm d)) < fuel ->
    join sep (map encm d) = quote :: tail ->
    object_members fuel (tail ++ newline_indent lvl0 ++ rbrace :: rest)
    = Some (d, rest).
Proof.
  induction d as [|[k v] d IH]; [contradiction|].
  intros _ Hall fuel rest tail Hf Ht.
  inversion Hall as [|kv' d' Hv Hd]; subst kv' d'. cbn [snd] in Hv.
  destruct fuel as [|f]; [lia|]. rewrite object_members_S.
  assert (Hlen : List.length (iterencode v level)
                 <= List.length (encm (k, v))).
  { cbn [member]. rewrite !length_app. lia. }
  destruct d as [|kv2 d].
  - cbn [map join] in Ht, Hf.
    destruct (@member_parse k v f (newline_indent lvl0 ++ rbrace :: rest)
                Hv ltac:(lia) tail Ht) as [E1 E2].
    rewrite E1. rewrite skip_ws_stop by reflexivity.
    change (colon =? colon)%N with true. cbv iota.
    change (skip_ws (space :: ?s)) with (skip_ws s).
    rewrite skip_ws_iterencode, E2.
    rewrite skip_ws_newline_indent. reflexivity.
  - cbn [map] in Ht, Hf. rewrite join_two in Ht, Hf.
    change (encm kv2 :: map encm d) with (map encm (kv2 :: d)) in *.
    destruct (@members_head (kv2 :: d)) as [tail2 Ht2]; [discriminate|].
    rewrite !length_app in Hf. pose proof separator_length as Hs.
    destruct (encm (k, v)) as [|q body] eqn:Em; [discriminate Ht|].
    rewrite <- app_comm_cons in Ht.
    apply cons_eq in Ht. destruct Ht as [-> <-].
    rewrite <- !app_assoc.
    destruct (@member_parse k v f
                (sep ++ join sep (map encm (kv2 :: d))
                 ++ newline_indent lvl0 ++ rbrace :: rest)
                Hv ltac:(lia) body Em) as [E1 E2].
    rewrite E1. rewrite skip_ws_stop by reflexivity.
    change (colon =? colon)%N with true. cbv iota.
    change (skip_ws (space :: ?s)) with (skip_ws s).
    rewrite skip_ws_iterencode, E2.
    rewrite skip_ws_separator.
    change (sep ++ ?s) with (comma_char :: newline_indent level ++ s).
    cbv iota.
    change (comma_char =? rbrace)%N with false.
    change (comma_char =? comma_char)%N with true. cbv iota.
    rewrite skip_ws_newline_indent. rewrite Ht2. cbn [app].
    rewrite skip_ws_stop by reflexivity.
    change (quote =? quote)%N with true. cbv iota.
    rewrite (IH ltac:(discriminate) Hd f rest tail2);
      [reflexivity | cbn [List.length] in *; lia | exact Ht2].
Qed.

End Members.

Lemma items_head (level : nat) (l : list json) :
  l <> [] ->
  exists c tail,
    join (separator level) (map (fun v => iterencode v level) l) = c :: tail
    /\ opener c.
Proof.
  destruct l as [|x [|y l]]; intros H; [contradiction| |].
  - apply iterencode_head.
  - cbn [map]. rewrite join_two.
    destruct (iterencode_head x level) as (c & tail & -> & Hc).
    rewrite <- app_comm_cons. eauto.
Qed.

Lemma iterencode_array (x : json) (l : list json) (level : nat) :
  iterencode (JArray (x :: l)) level =
  lbracket :: newline_indent (S level)
  ++ join (separator (S level))
       (map (fun v => iterencode v (S level)) (x :: l))
  ++ newline_indent level ++ [rbracket].
Proof. reflexivity. Qed.

Lemma iterencode_object (kv : str * json) (d : list (str * json))
  (level : nat) :
  iterencode (JObject (kv :: d)) level =
  lbrace :: newline_indent (S level)
  ++ join (separator (S level))
       (map (member (fun v => iterencode v (S level))) (kv :: d))
  ++ newline_indent level ++ [rbrace].
Proof. reflexivity. Qed.

(** Everything [dumps] prints is read back by [scan_once]. *)
Lemma wf_parses (v : json) : wf v -> parses v.
Proof.
  induction v as [s | l IH | d IH] using json_induction; intros Hwf.
  - intros level fuel rest Hf. cbn [iterencode encode_basestring] in *.
    destruct fuel as [|f]; [simpl in Hf; lia|].
    change (scan_once (S f)
              (quote :: (flat_map escape s ++ [quote]) ++ rest)
            = Some (JString s, rest)).
    rewrite scan_once_S.
    change (quote =? quote)%N with true. cbv iota.
    rewrite <- app_assoc.
    change ([quote] ++ rest) with (quote :: rest).
    now rewrite scanstring_escape.
  - inversion Hwf as [| l' Hl |]; subst l'.
    assert (Hp : Forall parses l).
    { rewrite Forall_forall in *. auto. }
    clear IH Hl Hwf. intros level fuel rest Hf.
    destruct l as [|x l].
    + destruct fuel as [|f]; [cbn in Hf; lia | reflexivity].
    + rewrite iterencode_array in *.
      set (J := join _ _) in *.
      assert (HJ : S (List.length J) < fuel).
      { cbn [List.length] in Hf. rewrite !length_app in Hf.
        unfold newline_indent in Hf. cbn [List.length] in Hf. lia. }
      clear Hf. subst J.
      destruct fuel as [|f]; [lia|]. apply PeanoNat.lt_S_n in HJ.
      rewrite <- app_comm_cons, scan_once_S.
      change (lbracket =? quote)%N with false.
      change (lbracket =? lbrace)%N with false.
      change (lbracket =? lbracket)%N with true. cbv iota.
      rewrite <- !app_assoc. rewrite skip_ws_newline_indent.
      rewrite skip_ws_items by discriminate.
      destruct (@items_head (S level) (x :: l)) as (c & tail & E & Hc);
        [discriminate|].
      rewrite E at 1. rewrite <- app_comm_cons.
      replace (c =? rbracket)%N with false
        by (destruct Hc as [-> | [-> | ->]]; reflexivity).
      rewrite app_comm_cons, <- E.
      change ([rbracket] ++ rest) with (rbracket :: rest).
      rewrite array_items_join;
        [reflexivity | discriminate | assumption | exact HJ].
  - inversion Hwf as [| | d' Hn Hd]; subst d'.
    assert (Hp : Forall (fun kv => parses (snd kv)) d).
    { rewrite Forall_forall in *. auto. }
    clear IH Hd Hwf. intros level fuel rest Hf.
    destruct d as [|kv d].
    + destruct fuel as [|f]; [cbn in Hf; lia | reflexivity].
    + rewrite iterencode_object in *.
      set (J := join _ _) in *.
      assert (HJ : S (List.length J) < fuel).
      { cbn [List.length] in Hf. rewrite !length_app in Hf.
        unfold newline_indent in Hf. cbn [List.length] in Hf. lia. }
      clear Hf. subst J.
      destruct fuel as [|f]; [lia|]. apply PeanoNat.lt_S_n in HJ.
      rewrite <- app_comm_cons, scan_once_S.
      change (lbrace =? quote)%N with false.
      change (lbrace =? lbrace)%N with true. cbv iota.
      rewrite <- !app_assoc. rewrite skip_ws_newline_indent.
      destruct (@members_head (S level) (kv :: d)) as [tail E];
        [discriminate|].
      rewrite E at 1. rewrite <- app_comm_cons.
      rewrite skip_ws_stop by reflexivity.
      change (quote =? rbrace)%N with false.
      change (quote =? quote)%N with true. cbv iota.
      change ([rbrace] ++ rest) with (rbrace :: rest).
      rewrite (@object_members_join (S level) level (kv :: d)
                 ltac:(discriminate) Hp f rest tail);
        [| exact HJ | exact E].
      now rewrite dict_of_nodup.
Qed.

(** [loads] undoes [dumps]. *)
Lemma loads_dumps (v : json) : wf v -> loads (dumps v) = Some v.
Proof.
  intros Hwf. unfold loads, dumps.
  pose proof (skip_ws_iterencode v 0 []) as Hs.
  rewrite app_nil_r in Hs. rewrite Hs.
  pose proof (@wf_parses v Hwf 0 (List.length (iterencode v 0)) []
                (le_n _)) as Hp.
  rewrite app_nil_r in Hp. rewrite Hp. reflexivity.
Qed.

Lemma strings_of_map (l : list str) : strings_of (map JString l) = Some l.
Proof.
  induction l as [|s l IH]; [reflexivity|].
  cbn [map strings_of]. now rewrite IH.
Qed.

Lemma wf_strings (l : list str) : wf (JArray (map JString l)).
Proof.
  constructor. induction l as [|s l IH]; constructor; [constructor | exact IH].
Qed.

Lemma wf_asdict (p : PromptStructure) : wf (asdict p).
Proof.
  unfold asdict. constructor.
  - cbn [map fst].
    repeat (constructor; [cbv; intuition discriminate|]). constructor.
  - repeat (apply Forall_cons;
            [cbn [snd]; first [apply wf_string | apply wf_strings]|]).
    apply Forall_nil.
Qed.

Lemma record_of_asdict (p : PromptStructure) : record_of (asdict p) = Some p.
Proof.
  destruct p. unfold record_of, asdict. cbn [role task context requirements
    format examples constraints tone prompt_type].
  cbn [lookup].
  repeat match goal with
         | |- context [Str.eqb ?a ?b] =>
             let r := eval vm_compute in (Str.eqb a b) in
             change (Str.eqb a b) with r
         end.
  cbv iota. cbn [as_str as_list]. rewrite !strings_of_map. reflexivity.
Qed.

(** Reading back the text printed for a record gives the record. *)
Lemma parse_record_dumps (p : PromptStructure) :
  parse_record (dumps (asdict p)) = Some p.
Proof.
  unfold parse_record. rewrite loads_dumps by apply wf_asdict.
  apply record_of_asdict.
Qed.

(** ** The methods read the object and never assign to it *)

Lemma read_only_ret (A : Type) (a : A) : Obj.read_only (Obj.ret a).
Proof. intros o. reflexivity. Qed.

Lemma read_only_raise (A : Type) : Obj.read_only (Obj.raise A).
Proof. intros o. reflexivity. Qed.

Lemma read_only_getattr (name : str) : Obj.read_only (Obj.getattr name).
Proof. intros o. reflexivity. Qed.

Lemma read_only_bind (A B : Type) (m : Obj.method A) (k : A -> Obj.method B) :
  Obj.read_only m -> (forall a, Obj.read_only (k a)) ->
  Obj.read_only (Obj.bind m k).
Proof.
  intros Hm Hk o. unfold Obj.bind. specialize (Hm o).
  destruct (m o) as [[a|] o']; cbn [snd] in *; subst o'.
  - apply Hk.
  - reflexivity.
Qed.

Lemma read_only_items (v : Obj.attr) : Obj.read_only (Obj.items v).
Proof. destruct v; [apply read_only_ret | apply read_only_raise]. Qed.

Lemma read_only_elements (v : Obj.attr) : Obj.read_only (Obj.elements v).
Proof. destruct v; [apply read_only_raise | apply read_only_ret]. Qed.

(** Goes through a method body, bind by bind. *)
Ltac read_only_body :=
  repeat first
    [ apply read_only_ret
    | apply read_only_getattr
    | apply read_only_items
    | apply read_only_elements
    | apply read_only_bind; [|intros ?] ].

Lemma read_only_extract_role (prompt : str) :
  Obj.read_only (Obj._extract_role prompt).
Proof. unfold Obj._extract_role. read_only_body. Qed.

Lemma read_only_extract_task (prompt : str) :
  Obj.read_only (Obj._extract_task prompt).
Proof. unfold Obj._extract_task. read_only_body. Qed.

Lemma read_only_extract_format (prompt : str) :
  Obj.read_only (Obj._extract_format prompt).
Proof. unfold Obj._extract_format. read_only_body. Qed.

Lemma read_only_extract_tone (prompt : str) :
  Obj.read_only (Obj._extract_tone prompt).
Proof. unfold Obj._extract_tone. read_only_body. Qed.

Lemma read_only_analyze (prompt : str) :
  Obj.read_only (Obj.analyze_natural_prompt prompt).
Proof.
  unfold Obj.analyze_natural_prompt.
  apply read_only_bind; [apply read_only_extract_role | intros role].
  apply read_only_bind; [apply read_only_extract_task | intros task].
  apply read_only_bind; [apply read_only_ret | intros context].
  apply read_only_bind; [apply read_only_ret | intros requirements].
  apply read_only_bind; [apply read_only_extract_format | intros format].
  apply read_only_bind; [apply read_only_extract_tone | intros tone].
  apply read_only_bind; [apply read_only_ret | intros prompt_type].
  apply read_only_ret.
Qed.

Lemma read_only_optimize_prompt (text : str) :
  Obj.read_only (Obj.optimize_prompt text).
Proof.
  unfold Obj.optimize_prompt.
  apply read_only_bind; [apply read_only_analyze | intros analysis].
  apply read_only_bind; [apply read_only_ret | intros examples].
  apply read_only_bind; [apply read_only_ret | intros constraints].
  apply read_only_ret.
Qed.

Lemma read_only_calls (texts : list str) : Obj.read_only (Obj.calls texts).
Proof.
  induction texts as [|text texts IH]; intros o; [reflexivity|].
  cbn [Obj.calls]. pose proof (read_only_optimize_prompt text o) as H.
  destruct (Obj.optimize_prompt text o) as [result o1]. cbn [snd] in H.
  subst o1. specialize (IH o).
  destruct (Obj.calls texts o) as [results o2]. exact IH.
Qed.

(** [__init__] is not read-only: it gives a new object its four
    attributes. *)
Lemma new_attributes :
  map fst Obj.new =
  [u "role_keywords"; u "task_patterns"; u "format_keywords";
   u "tone_keywords"] /\
  ~ Obj.read_only Obj.__init__.
Proof.
  split; [reflexivity|]. intros H. specialize (H []). discriminate H.
Qed.

(** On the object that [PromptOptimizer()] builds, the method returns what
    the function [optimize_prompt] of the tables returns, and does not
    raise. *)
Lemma optimize_prompt_on_new (text : str) :
  Obj.optimize_prompt text Obj.new =
  (Some (optimize_prompt __init__ text), Obj.new).
Proof. reflexivity. Qed.

(** The attributes are really read: an assignment between two calls
    changes what the second returns, and an object without the attributes
    makes the method raise. *)
Lemma result_depends_on_attributes :
  fst (Obj.optimize_prompt (u "请教专家") Obj.new) <>
  fst (Obj.optimize_prompt (u "请教专家")
         (Obj.setattr Obj.new (u "role_keywords") (Obj.Table []))) /\
  Obj.optimize_prompt (u "请教专家") [] = (None, []).
Proof.
  split; [vm_compute; discriminate | reflexivity].
Qed.

(** ** The claims *)

(** C10: for every input the record has exactly one example and exactly
    two constraints; the same holds of the two generators at every type
    string, mapped or not. *)
Theorem examples_one_constraints_two (prompt prompt_type : str) :
  List.length (examples (optimized_prompt __init__ prompt)) = 1 /\
  List.length (constraints (optimized_prompt __init__ prompt)) = 2 /\
  List.length (_generate_examples __init__ prompt_type) = 1 /\
  List.length (_generate_constraints __init__ prompt_type) = 2.
Proof.
  repeat split; simpl;
    auto using generate_examples_length, generate_constraints_length.
Qed.

(** C7: for every input, [format], [tone] and [prompt_type] of the record
    are members of their enumerations. *)
Theorem fields_in_enumerations (prompt : str) :
  let r := optimized_prompt __init__ prompt in
  In (format r) format_values /\
  In (tone r) tone_values /\
  In (prompt_type r) prompt_type_values.
Proof.
  simpl. split; [|split].
  - apply extract_format_in.
  - apply extract_tone_in.
  - apply classify_cases.
Qed.

(** C6: the classifier answers creative as soon as a creative keyword
    occurs, whatever else occurs; then analytical, then instructional, and
    conversational when no keyword of the three sets occurs. *)
Theorem classify_priority (prompt : str) :
  (any_in creative_keywords prompt = true ->
   any_in analytical_keywords prompt = true ->
   _classify_prompt_type __init__ prompt = value CREATIVE) /\
  (any_in creative_keywords prompt = true ->
   _classify_prompt_type __init__ prompt = value CREATIVE) /\
  (any_in creative_keywords prompt = false ->
   any_in analytical_keywords prompt = true ->
   _classify_prompt_type __init__ prompt = value ANALYTICAL) /\
  (any_in creative_keywords prompt = false ->
   any_in analytical_keywords prompt = false ->
   any_in instructional_keywords prompt = true ->
   _classify_prompt_type __init__ prompt = value INSTRUCTIONAL) /\
  (any_in creative_keywords prompt = false ->
   any_in analytical_keywords prompt = false ->
   any_in instructional_keywords prompt = false ->
   _classify_prompt_type __init__ prompt = value CONVERSATIONAL).
Proof.
  unfold _classify_prompt_type.
  repeat split; intros; repeat match goal with
                               | H : any_in _ _ = _ |- _ => rewrite H; clear H
                               end; reflexivity.
Qed.

Lemma classify_priority_witness :
  let prompt := u "请分析这个创意故事，并解释步骤" in
  any_in creative_keywords prompt = true /\
  any_in analytical_keywords prompt = true /\
  _classify_prompt_type __init__ prompt = u "creative".
Proof.
  intros prompt. split; [reflexivity|]. split; [reflexivity|].
  apply (proj1 (classify_priority prompt)); reflexivity.
Defined.

(** *** C1 *)

(** A string that is one of finitely many literal strings, none of them
    empty, is not empty. *)
Ltac member_nonempty H :=
  let Hin := fresh "Hin" in
  let E := fresh "E" in
  pose proof H as Hin; intros E; rewrite E in Hin; cbv in Hin;
  repeat (destruct Hin as [Hin | Hin]; [discriminate Hin|]); exact Hin.

(** C1, counterexample: the record built from the empty prompt has an
    empty task. *)
Lemma empty_prompt_empty_task :
  task (optimized_prompt __init__ (u "")) = [] /\
  ~ all_fields_populated (optimized_prompt __init__ (u "")).
Proof.
  split; [reflexivity|].
  intros (_ & Ht & _). apply Ht. reflexivity.
Qed.

(** C1, amended: for every input the record has a non-empty role, format,
    tone and prompt_type and non-empty requirements, examples and
    constraints.  The task is empty in these cases only: the first task
    pattern that matches, in table order, captures a text that is empty
    or white space throughout; or no task pattern matches and the input
    is empty or begins with a period. *)
Theorem populated_fields (prompt : str) :
  let r := optimized_prompt __init__ prompt in
  role r <> [] /\ format r <> [] /\ tone r <> [] /\ prompt_type r <> [] /\
  requirements r <> [] /\ examples r <> [] /\ constraints r <> [] /\
  (forall before pattern after m,
      task_patterns __init__ = before ++ pattern :: after ->
      (forall p, In p before -> search p prompt = None) ->
      search pattern prompt = Some m ->
      (task r = [] <-> blank (group1 m) = true)) /\
  ((forall p, In p (task_patterns __init__) -> search p prompt = None) ->
   (task r = [] <-> prompt = [] \/ startswith prompt period = true)).
Proof.
  cbv zeta.
  cbn [optimized_prompt analyze_natural_prompt role task format tone
       prompt_type requirements examples constraints Analysis.role
       Analysis.task Analysis.format Analysis.tone Analysis.prompt_type
       Analysis.requirements].
  split; [|split; [|split; [|split; [|split; [|split; [|split; [|split]]]]]]].
  - unfold _extract_role.
    destruct (first_hit _ prompt) as [[k v]|]; discriminate.
  - member_nonempty (extract_format_in prompt).
  - member_nonempty (extract_tone_in prompt).
  - member_nonempty (classify_cases __init__ prompt).
  - unfold _extract_requirements.
    destruct (requirements_loop _ prompt []); discriminate.
  - intros E. generalize (generate_examples_length __init__
                            (_classify_prompt_type __init__ prompt)).
    rewrite E; discriminate.
  - intros E. generalize (generate_constraints_length __init__
                            (_classify_prompt_type __init__ prompt)).
    rewrite E; discriminate.
  - intros before pattern after m E Hb Hm. unfold _extract_task.
    rewrite E, (task_loop_first before after pattern prompt Hb Hm).
    apply strip_nil.
  - intros Hn. apply fallback_task_empty.
    now apply task_loop_none.
Qed.

Lemma populated_fields_witness :
  task (optimized_prompt __init__ (u "请 ，写报告")) = [] /\
  task (optimized_prompt __init__ (u "请写报告")) <> [] /\
  task (optimized_prompt __init__ (u "。好")) = [] /\
  task (optimized_prompt __init__ (u "好。")) <> [].
Proof.
  pose proof (populated_fields (u "请 ，写报告")) as H1.
  pose proof (populated_fields (u "请写报告")) as H2.
  pose proof (populated_fields (u "。好")) as H3.
  pose proof (populated_fields (u "好。")) as H4.
  cbv zeta in H1, H2, H3, H4.
  destruct H1 as (_ & _ & _ & _ & _ & _ & _ & H1 & _).
  destruct H2 as (_ & _ & _ & _ & _ & _ & _ & H2 & _).
  destruct H3 as (_ & _ & _ & _ & _ & _ & _ & _ & H3).
  destruct H4 as (_ & _ & _ & _ & _ & _ & _ & _ & H4).
  split; [|split; [|split]].
  - apply (H1 [lead_pattern (u "帮我")] (lead_pattern (u "请"))
              [lead_pattern (u "需要"); lead_pattern (u "想要")]
              (mkMatch 0 3 (Some (u " ")))).
    + reflexivity.
    + intros p [<- | []]; reflexivity.
    + reflexivity.
    + reflexivity.
  - intros E.
    apply (H2 [lead_pattern (u "帮我")] (lead_pattern (u "请"))
              [lead_pattern (u "需要"); lead_pattern (u "想要")]
              (mkMatch 0 4 (Some (u "写报告")))) in E.
    + discriminate E.
    + reflexivity.
    + intros p [<- | []]; reflexivity.
    + reflexivity.
  - apply H3.
    + intros p [<- | [<- | [<- | [<- | []]]]]; reflexivity.
    + right; reflexivity.
  - intros E. apply H4 in E.
    + destruct E as [E | E]; discriminate E.
    + intros p [<- | [<- | [<- | [<- | []]]]]; reflexivity.
Defined.

(** *** C2 *)

(** C2, counterexample: in "情况。背景" the first indicator by table order,
    "背景", has no period after it, and the context found is "情况。". *)
Lemma extract_context_goes_on :
  _extract_context __init__ (u "情况。背景") = u "情况。" /\
  ~ unterminated_context_empty (u "情况。背景").
Proof.
  split; [reflexivity|].
  intros H.
  specialize (H (u "背景") 3 eq_refl eq_refl eq_refl). discriminate H.
Qed.

(** C2, amended: the context is empty when no indicator that occurs in
    the input has a period after its first occurrence; an indicator
    without a following period is passed over, and the context comes from
    the first indicator, in table order, that occurs with a period after
    it: the text from the indicator to that period, included. *)
Theorem extract_context_first_terminated (prompt : str) :
  ((forall indicator start,
       In indicator context_indicators ->
       find prompt indicator 0 = Some start ->
       find prompt period start = None) ->
   _extract_context __init__ prompt = []) /\
  (forall before indicator after start end_,
      context_indicators = before ++ indicator :: after ->
      (forall b s, In b before ->
                   find prompt b 0 = Some s ->
                   find prompt period s = None) ->
      find prompt indicator 0 = Some start ->
      find prompt period start = Some end_ ->
      _extract_context __init__ prompt = slice prompt start (end_ + 1)).
Proof.
  unfold _extract_context. split.
  - apply context_loop_empty.
  - intros before indicator after start end_ ->. apply context_loop_first.
Qed.

Lemma extract_context_first_terminated_witness :
  _extract_context __init__ (u "情况。背景") =
  slice (u "情况。背景") 0 (2 + 1).
Proof.
  apply (proj2 (extract_context_first_terminated (u "情况。背景"))
           [u "背景"] (u "情况") [u "场景"; u "环境"] 0 2).
  - reflexivity.
  - intros b s [<- | []] E. vm_compute in E. injection E as <-. reflexivity.
  - reflexivity.
  - reflexivity.
Defined.

(** *** C3 *)

(** C3, counterexample: the "请" pattern captures
    "帮我写一个关于人工智能发展的专业分析报告", which is not the task. *)
Lemma demo_task_not_by_please :
  (exists m, search (lead_pattern (u "请")) demo_prompt = Some m /\
             strip (group1 m) = u "帮我写一个关于人工智能发展的专业分析报告") /\
  ~ demo_task_by_please.
Proof.
  split.
  - eexists; split; reflexivity.
  - intros (_ & _ & _ & m & Hm & Ht).
    vm_compute in Hm. injection Hm as <-. vm_compute in Ht. discriminate Ht.
Qed.

(** C3, amended: on the demonstration prompt the analysis has prompt_type
    analytical, tone professional and format report, and the task is what
    the "帮我" pattern, the first of the table, captures: the text between
    "帮我" and the first comma. *)
Theorem demo_analysis :
  let a := analyze_natural_prompt __init__ demo_prompt in
  Analysis.prompt_type a = u "analytical" /\
  Analysis.tone a = u "professional" /\
  Analysis.format a = u "report" /\
  (exists m, search (lead_pattern (u "帮我")) demo_prompt = Some m /\
             Analysis.task a = strip (group1 m)) /\
  Analysis.task a = u "写一个关于人工智能发展的专业分析报告" /\
  demo_prompt =
    u "请" ++ u "帮我" ++ Analysis.task a ++ comma
    ++ u "要求详细分析现状和趋势".
Proof.
  simpl. repeat split; try reflexivity.
  eexists; split; reflexivity.
Qed.

(** *** C4 *)

(** C4: the task extractor has four patterns, and group 1 takes part in
    every match of each; the task is the trimmed group of the first
    pattern, in declaration order, that matches; when none matches it is
    the text before the first period, and the whole input when there is
    no period. *)
Theorem extract_task_order (prompt : str) :
  List.length (task_patterns __init__) = 4 /\
  (forall pattern m,
      In pattern (task_patterns __init__) ->
      search pattern prompt = Some m ->
      exists body, m_group1 m = Some body) /\
  (forall before pattern after m,
      task_patterns __init__ = before ++ pattern :: after ->
      (forall p, In p before -> search p prompt = None) ->
      search pattern prompt = Some m ->
      _extract_task __init__ prompt = strip (group1 m)) /\
  ((forall p, In p (task_patterns __init__) -> search p prompt = None) ->
   forall i, find prompt period 0 = Some i ->
             _extract_task __init__ prompt = firstn i prompt) /\
  ((forall p, In p (task_patterns __init__) -> search p prompt = None) ->
   find prompt period 0 = None ->
   _extract_task __init__ prompt = prompt).
Proof.
  split; [reflexivity|]. split; [|split; [|split]].
  - intros pattern m Hin Hm.
    destruct Hin as [<- | [<- | [<- | [<- | []]]]];
      exact (search_from_lead_group _ _ _ Hm).
  - intros before pattern after m E Hb Hm. unfold _extract_task.
    rewrite E. now rewrite (task_loop_first before after pattern prompt Hb Hm).
  - intros Hn i Hi. unfold _extract_task.
    rewrite (proj1 (task_loop_none _ _) Hn).
    assert (Hc : contains period prompt = true)
      by (apply contains_find; eauto).
    rewrite Hc. apply split_first; [discriminate | assumption].
  - intros Hn Hi. unfold _extract_task.
    rewrite (proj1 (task_loop_none _ _) Hn).
    now rewrite (proj2 (contains_false_find _ _) Hi).
Qed.

Lemma extract_task_order_witness :
  _extract_task __init__ (u "我想要一杯茶。谢谢") = u "一杯茶" /\
  _extract_task __init__ (u "今天天气好。明天呢") =
    firstn 5 (u "今天天气好。明天呢") /\
  _extract_task __init__ (u "今天天气好") = u "今天天气好".
Proof.
  split; [|split].
  - apply (proj1 (proj2 (proj2 (extract_task_order (u "我想要一杯茶。谢谢"))))
             [lead_pattern (u "帮我"); lead_pattern (u "请");
              lead_pattern (u "需要")]
             (lead_pattern (u "想要")) []
             (mkMatch 1 7 (Some (u "一杯茶")))).
    + reflexivity.
    + intros p [<- | [<- | [<- | []]]]; reflexivity.
    + reflexivity.
  - refine (proj1 (proj2 (proj2 (proj2
              (extract_task_order (u "今天天气好。明天呢"))))) _ 5 _).
    + intros p [<- | [<- | [<- | [<- | []]]]]; reflexivity.
    + reflexivity.
  - apply (proj2 (proj2 (proj2 (proj2 (extract_task_order (u "今天天气好")))))).
    + intros p [<- | [<- | [<- | [<- | []]]]]; reflexivity.
    + reflexivity.
Defined.

(** *** C5 *)

(** C5: the requirements are the trimmed matches of the "要求：" pattern,
    then those of the "需要" pattern, then those of the "必须" pattern,
    every match of each: the first match in the text, then the matches in
    what follows it.  When there is none the result is the one default
    requirement. *)
Theorem extract_requirements_all_matches (prompt : str) :
  let all_matches :=
    map strip (findall (lead_pattern (u "要求：")) prompt)
    ++ map strip (findall (lead_pattern (u "需要")) prompt)
    ++ map strip (findall (lead_pattern (u "必须")) prompt) in
  (all_matches = [] ->
   _extract_requirements __init__ prompt = [default_requirement]) /\
  (all_matches <> [] ->
   _extract_requirements __init__ prompt = all_matches) /\
  (forall pattern text,
      In pattern requirement_patterns ->
      findall pattern text =
      match search pattern text with
      | None => []
      | Some m => group1 m :: findall pattern (skipn (m_end m) text)
      end).
Proof.
  intros all_matches.
  assert (E : requirements_loop requirement_patterns prompt [] = all_matches).
  { rewrite requirements_loop_app. simpl. now rewrite app_nil_r. }
  unfold _extract_requirements. rewrite E.
  split; [|split].
  - intros ->. reflexivity.
  - destruct all_matches; congruence.
  - intros pattern text Hin. apply findall_search.
    destruct Hin as [<- | [<- | [<- | []]]];
      apply (@lead_pattern_advances (_ :: _)); discriminate.
Qed.

Lemma extract_requirements_all_matches_witness :
  _extract_requirements __init__ (u "必须准时，要求：简短。需要图表，需要 目录 。")
  = [u "简短"; u "图表"; u "目录"; u "准时"] /\
  _extract_requirements __init__ (u "你好") = [u "生成高质量的回答"].
Proof.
  split.
  - apply (proj1 (proj2 (extract_requirements_all_matches
                           (u "必须准时，要求：简短。需要图表，需要 目录 。")))).
    vm_compute. discriminate.
  - apply (proj1 (extract_requirements_all_matches (u "你好"))).
    reflexivity.
Defined.

(** *** C8 *)

(** C8: a call of [optimize_prompt] assigns to no attribute of the
    optimizer, so on any optimizer object two calls with the same input
    return the same text (or both raise), whatever calls are made in
    between, and the object is after the calls what it was before them;
    on the object that [PromptOptimizer()] builds the calls do not raise
    and return the text computed from the tables. *)
Theorem optimize_prompt_repeatable (text : str) (between : list str) :
  (forall o : Obj.object,
      let (first, o1) := Obj.optimize_prompt text o in
      let (_, o2) := Obj.calls between o1 in
      let (second, o3) := Obj.optimize_prompt text o2 in
      first = second /\ o1 = o /\ o2 = o /\ o3 = o) /\
  (let (first, o1) := Obj.optimize_prompt text Obj.new in
   let (_, o2) := Obj.calls between o1 in
   let (second, _) := Obj.optimize_prompt text o2 in
   first = Some (optimize_prompt __init__ text) /\
   second = Some (optimize_prompt __init__ text)).
Proof.
  assert (H : forall o : Obj.object,
             let (first, o1) := Obj.optimize_prompt text o in
             let (_, o2) := Obj.calls between o1 in
             let (second, o3) := Obj.optimize_prompt text o2 in
             first = second /\ o1 = o /\ o2 = o /\ o3 = o).
  { intros o.
    pose proof (read_only_optimize_prompt text o) as H1.
    destruct (Obj.optimize_prompt text o) as [first o1] eqn:E1.
    cbn [snd] in H1. subst o1.
    pose proof (read_only_calls between o) as H2.
    destruct (Obj.calls between o) as [results o2]. cbn [snd] in H2.
    subst o2. rewrite E1. auto. }
  split; [exact H|].
  specialize (H Obj.new).
  destruct (Obj.optimize_prompt text Obj.new) as [first o1] eqn:E1.
  destruct (Obj.calls between o1) as [results o2].
  destruct (Obj.optimize_prompt text o2) as [second o3].
  destruct H as (<- & _ & _ & _).
  rewrite optimize_prompt_on_new in E1. injection E1 as <- _. auto.
Qed.

(** *** C9 *)

(** C9: reading back the text that [optimize_prompt] prints gives a
    record with the role, task, requirements, format, tone and prompt_type
    of the analysis, its context or the default context when that is
    empty, and the examples and constraints generated for its
    prompt_type. *)
Theorem serialization_round_trip (self : PromptOptimizer) (prompt : str) :
  let a := analyze_natural_prompt self prompt in
  parse_record (optimize_prompt self prompt) =
  Some {| role := Analysis.role a;
          task := Analysis.task a;
          context := match Analysis.context a with
                     | [] => default_context
                     | _ :: _ => Analysis.context a
                     end;
          requirements := Analysis.requirements a;
          format := Analysis.format a;
          examples := _generate_examples self (Analysis.prompt_type a);
          constraints := _generate_constraints self (Analysis.prompt_type a);
          tone := Analysis.tone a;
          prompt_type := Analysis.prompt_type a |}.
Proof.
  intros a. unfold optimize_prompt.
  rewrite parse_record_dumps. reflexivity.
Qed.

(** ** Further properties of the extractors *)

(** *** Supporting facts *)

Lemma startswith_char (c x : char) (s : str) :
  startswith (x :: s) [c] = (c =? x)%N.
Proof.
  unfold startswith. cbn [strip_prefix]. destruct (c =? x)%N; reflexivity.
Qed.

Lemma find_from_char_none (c : char) (s : str) (k : nat) :
  find_from [c] s k = None <-> ~ In c s.
Proof.
  revert k; induction s as [|x s IH]; intros k.
  - simpl. tauto.
  - cbn [find_from]. rewrite startswith_char.
    destruct (N.eqb_spec c x) as [-> | Hne].
    + split; [discriminate | intros H; exfalso; apply H; now left].
    + rewrite IH. simpl. split; [intros H [E | Hin]; congruence | tauto].
Qed.

Lemma contains_char (c : char) (s : str) :
  contains [c] s = false <-> ~ In c s.
Proof.
  rewrite contains_false_find, find_zero. apply find_from_char_none.
Qed.

(** Before its first occurrence a character does not occur. *)
Lemma find_from_char_first (c : char) (s : str) (k i : nat) :
  find_from [c] s k = Some (k + i) ->
  ~ In c (firstn i s) /\ exists rest, skipn i s = c :: rest.
Proof.
  revert k i; induction s as [|x s IH]; intros k i.
  - simpl. discriminate.
  - cbn [find_from]. rewrite startswith_char.
    destruct (N.eqb_spec c x) as [-> | Hne].
    + intros E. assert (i = 0) by (injection E; lia). subst i.
      simpl. split; [tauto | eauto].
    + intros E. destruct i as [|i].
      * apply find_from_ge in E. lia.
      * replace (k + S i) with (S k + i) in E by lia.
        destruct (IH _ _ E) as [Hn Hr]. simpl. split; [|exact Hr].
        intros [E' | Hin]; [congruence | tauto].
Qed.

(** Where [find] points, the text sought stands. *)
Lemma find_from_occurs (sub s : str) (k i : nat) :
  find_from sub s k = Some (k + i) ->
  exists rest, skipn i s = sub ++ rest.
Proof.
  revert k i; induction s as [|x s IH]; intros k i; cbn [find_from].
  - unfold startswith. destruct (strip_prefix sub []) as [r|] eqn:E;
      [|discriminate].
    intros H. assert (i = 0) by (injection H; lia). subst i.
    apply strip_prefix_Some in E. exists r. exact E.
  - unfold startswith. destruct (strip_prefix sub (x :: s)) as [r|] eqn:E.
    + intros H. assert (i = 0) by (injection H; lia). subst i.
      apply strip_prefix_Some in E. exists r. exact E.
    + intros H. destruct i as [|i].
      * apply find_from_ge in H. lia.
      * replace (k + S i) with (S k + i) in H by lia.
        exact (IH _ _ H).
Qed.

Lemma rstrip_prefix (s : str) : exists q, s = rstrip s ++ q.
Proof.
  unfold rstrip. destruct (lstrip_suffix (rev s)) as [p Hp].
  exists (rev p). rewrite <- rev_app_distr, <- Hp. now rewrite rev_involutive.
Qed.

Lemma rstrip_last (s : str) (c : char) (r : str) :
  rstrip s = r ++ [c] -> isspace c = false.
Proof.
  unfold rstrip. intros H.
  apply (f_equal (@rev char)) in H.
  rewrite rev_involutive, rev_app_distr in H. simpl in H.
  exact (@lstrip_head _ _ _ H).
Qed.

Lemma strip_trimmed (s : str) : trimmed (strip s).
Proof.
  unfold strip. split.
  - intros c r E. destruct (rstrip_prefix (lstrip s)) as [q Hq].
    rewrite E in Hq. simpl in Hq. exact (@lstrip_head _ _ _ Hq).
  - intros c r E. exact (@rstrip_last _ _ _ E).
Qed.

Lemma strip_in (s : str) (c : char) : In c (strip s) -> In c s.
Proof.
  unfold strip. intros H.
  destruct (rstrip_prefix (lstrip s)) as [q Hq].
  destruct (lstrip_suffix s) as [p Hp].
  rewrite Hp, Hq. apply in_or_app. right. apply in_or_app. now left.
Qed.

Lemma clean_of_chars (s : str) :
  (forall c, In c s -> c <> newline /\ [c] <> comma /\ [c] <> period) ->
  clean s.
Proof.
  intros H. unfold clean, comma, period.
  rewrite !contains_char. repeat split; intros Hin;
    destruct (H _ Hin) as (Hn & Hc & Hp);
    [apply Hc | apply Hp | apply Hn]; reflexivity.
Qed.

Lemma clean_strip (s : str) :
  (forall c, In c s -> c <> newline /\ [c] <> comma /\ [c] <> period) ->
  clean (strip s).
Proof.
  intros H. apply clean_of_chars. intros c Hin. apply H, strip_in, Hin.
Qed.

(** The group of a match of a lead pattern is a captured text. *)
Lemma search_from_lead_capture (lead s : str) (pos : nat) (m : Match) :
  search_from (lead_pattern lead) s pos = Some m ->
  exists t rest, capture t = Some (group1 m, rest).
Proof.
  revert pos; induction s as [|c s IH]; intros pos; cbn [search_from];
    rewrite match_at_lead_pattern.
  - destruct (strip_prefix lead []) as [t|]; [|discriminate].
    destruct (capture t) as [[body rest]|] eqn:E; [|discriminate].
    intros H; injection H as <-. exists t, rest. exact E.
  - destruct (strip_prefix lead (c :: s)) as [t|].
    + destruct (capture t) as [[body rest]|] eqn:E.
      * intros H; injection H as <-. exists t, rest. exact E.
      * apply IH.
    + apply IH.
Qed.

Lemma findall_go_lead_capture (lead s : str) (skip : nat) (g : str) :
  lead <> [] ->
  In g (findall_go (lead_pattern lead) s skip) ->
  exists t rest, capture t = Some (g, rest).
Proof.
  intros Hl. revert skip; induction s as [|c s IH]; intros skip.
  - destruct skip as [|k]; cbn [findall_go]; [|intros []].
    destruct (match_at false (lead_pattern lead) []) as [[rest g0]|] eqn:E;
      [|intros []].
    destruct (lead_pattern_advances Hl _ E) as [n [Hn _]].
    unfold consumed in Hn. simpl in Hn. lia.
  - destruct skip as [|k]; cbn [findall_go]; [|apply IH].
    destruct (match_at false (lead_pattern lead) (c :: s))
      as [[rest g0]|] eqn:E; [|apply IH].
    destruct (lead_pattern_advances Hl _ E) as [n [Hn _]]. rewrite Hn.
    intros [<- | Hin]; [|exact (IH _ Hin)].
    rewrite match_at_lead_pattern in E.
    destruct (strip_prefix lead (c :: s)) as [t|]; [|discriminate].
    destruct (capture t) as [[body r]|] eqn:Ec; [|discriminate].
    injection E as <- <-. exists t, r. exact Ec.
Qed.

(** The entry that [first_hit] returns is the first whose keyword occurs. *)
Lemma first_hit_first (before after : list (str * str)) (k v prompt : str) :
  (forall k' v', In (k', v') before -> contains k' prompt = false) ->
  contains k prompt = true ->
  first_hit (before ++ (k, v) :: after) prompt = Some (k, v).
Proof.
  intros Hb Hk. induction before as [|[k' v'] before IH]; simpl.
  - now rewrite Hk.
  - rewrite (Hb k' v' (or_introl eq_refl)). apply IH.
    intros k2 v2 Hin. apply (Hb k2 v2). now right.
Qed.

Lemma first_hit_none (table : list (str * str)) (prompt : str) :
  (forall k v, In (k, v) table -> contains k prompt = false) ->
  first_hit table prompt = None.
Proof.
  induction table as [|[k v] table IH]; intros H; simpl; [reflexivity|].
  rewrite (H k v (or_introl eq_refl)). apply IH.
  intros k' v' Hin. apply (H k' v'). now right.
Qed.

Lemma first_hit_keys (t1 t2 : list (str * str)) (prompt : str) :
  map fst t1 = map fst t2 ->
  option_map fst (first_hit t1 prompt) = option_map fst (first_hit t2 prompt).
Proof.
  revert t2; induction t1 as [|[k v] t1 IH]; intros [|[k' v'] t2] E;
    try discriminate E; [reflexivity|].
  simpl in E. injection E as <- E. simpl.
  destruct (contains k prompt); [reflexivity | now apply IH].
Qed.

(** *** The keyword lookups *)

(** X1: the role names the first keyword of the role table, in table
    order, that occurs in the prompt, wherever it stands in the text; it
    is the assistant default when none occurs; and the tags that the table
    gives to the keywords play no part in it. *)
Theorem extract_role_first_keyword (self : PromptOptimizer) (prompt : str) :
  (forall before k v after,
      role_keywords self = before ++ (k, v) :: after ->
      (forall k' v', In (k', v') before -> contains k' prompt = false) ->
      contains k prompt = true ->
      _extract_role self prompt = u "你是一位" ++ k) /\
  ((forall k v, In (k, v) (role_keywords self) ->
                contains k prompt = false) ->
   _extract_role self prompt = u "你是一位AI助手") /\
  (forall other,
      map fst (role_keywords other) = map fst (role_keywords self) ->
      _extract_role other prompt = _extract_role self prompt).
Proof.
  unfold _extract_role. split; [|split].
  - intros before k v after -> Hb Hk.
    now rewrite (first_hit_first before after k v prompt Hb Hk).
  - intros Hn. now rewrite (first_hit_none _ _ Hn).
  - intros other E. pose proof (first_hit_keys _ _ prompt E) as H.
    destruct (first_hit (role_keywords other) prompt) as [[k v]|],
             (first_hit (role_keywords self) prompt) as [[k' v']|];
      simpl in H; congruence.
Qed.

Lemma extract_role_first_keyword_witness :
  _extract_role __init__ (u "请作家和专家一起看") = u "你是一位" ++ u "专家" /\
  _extract_role __init__ (u "你好") = u "你是一位AI助手".
Proof.
  split.
  - apply (proj1 (extract_role_first_keyword __init__ (u "请作家和专家一起看"))
             [] (u "专家") (u "expert")
             (tl (role_keywords __init__))).
    + reflexivity.
    + intros k' v' [].
    + reflexivity.
  - apply (proj1 (proj2 (extract_role_first_keyword __init__ (u "你好")))).
    intros k v H. cbv [__init__ role_keywords In] in H.
    repeat (destruct H as [H | H]; [injection H as <- <-; reflexivity|]).
    destruct H.
Defined.

(** X2: the format and the tone are the tags of the first keyword of
    their tables, in table order, that occurs in the prompt, and
    "paragraph" and "professional" when none occurs. *)
Theorem extract_format_tone_first_keyword (self : PromptOptimizer)
  (prompt : str) :
  (forall before k v after,
      format_keywords self = before ++ (k, v) :: after ->
      (forall k' v', In (k', v') before -> contains k' prompt = false) ->
      contains k prompt = true ->
      _extract_format self prompt = v) /\
  ((forall k v, In (k, v) (format_keywords self) ->
                contains k prompt = false) ->
   _extract_format self prompt = u "paragraph") /\
  (forall before k v after,
      tone_keywords self = before ++ (k, v) :: after ->
      (forall k' v', In (k', v') before -> contains k' prompt = false) ->
      contains k prompt = true ->
      _extract_tone self prompt = v) /\
  ((forall k v, In (k, v) (tone_keywords self) ->
                contains k prompt = false) ->
   _extract_tone self prompt = u "professional").
Proof.
  unfold _extract_format, _extract_tone. repeat split.
  - intros before k v after -> Hb Hk.
    now rewrite (first_hit_first before after k v prompt Hb Hk).
  - intros Hn. now rewrite (first_hit_none _ _ Hn).
  - intros before k v after -> Hb Hk.
    now rewrite (first_hit_first before after k v prompt Hb Hk).
  - intros Hn. now rewrite (first_hit_none _ _ Hn).
Qed.

Lemma extract_format_tone_first_keyword_witness :
  _extract_format __init__ (u "用报告或表格，详细而友好") = u "table" /\
  _extract_tone __init__ (u "用报告或表格，详细而友好") = u "friendly".
Proof.
  split.
  - apply (proj1 (extract_format_tone_first_keyword __init__
                    (u "用报告或表格，详细而友好"))
             [(u "列表", u "list")] (u "表格") (u "table")
             (tl (tl (format_keywords __init__)))).
    + reflexivity.
    + intros k' v' [H | []]. injection H as <- <-. reflexivity.
    + reflexivity.
  - apply (proj1 (proj2 (proj2 (extract_format_tone_first_keyword __init__
                                  (u "用报告或表格，详细而友好"))))
             [(u "专业", u "professional")] (u "友好") (u "friendly")
             (tl (tl (tone_keywords __init__)))).
    + reflexivity.
    + intros k' v' [H | []]. injection H as <- <-. reflexivity.
    + reflexivity.
Defined.

(** *** The task and the requirements *)

Lemma task_loop_some (patterns : list regex) (prompt t : str) :
  task_loop patterns prompt = Some t ->
  exists pattern m,
    In pattern patterns /\ search pattern prompt = Some m /\
    t = strip (group1 m).
Proof.
  induction patterns as [|p patterns IH]; simpl; [discriminate|].
  destruct (search p prompt) as [m|] eqn:E.
  - intros H; injection H as <-. exists p, m. auto.
  - intros H. destruct (IH H) as (q & m & Hin & Hm & Ht).
    exists q, m. auto.
Qed.

Lemma capture_strip_shape (t body rest : str) :
  capture t = Some (body, rest) -> clean (strip body) /\ trimmed (strip body).
Proof.
  intros E. split; [|apply strip_trimmed].
  apply clean_strip. exact (capture_body _ E).
Qed.

(** X3: the task never holds a period.  When a task pattern matches, the
    task holds no comma and no newline either and neither begins nor ends
    with white space; when none matches, the task is the beginning of the
    prompt, white space included. *)
Theorem extract_task_shape (prompt : str) :
  let task := _extract_task __init__ prompt in
  contains period task = false /\
  (task_loop (task_patterns __init__) prompt <> None ->
   clean task /\ trimmed task) /\
  (task_loop (task_patterns __init__) prompt = None ->
   exists rest, prompt = task ++ rest).
Proof.
  assert (Hm : forall t, task_loop (task_patterns __init__) prompt = Some t ->
                         clean t /\ trimmed t).
  { intros t Ht. destruct (task_loop_some _ _ Ht) as (p & m & Hin & Hs & ->).
    assert (Hc : exists x rest, capture x = Some (group1 m, rest)).
    { destruct Hin as [<- | [<- | [<- | [<- | []]]]];
        exact (search_from_lead_capture _ _ _ Hs). }
    destruct Hc as (x & rest & Hc). exact (capture_strip_shape _ Hc). }
  assert (Hf : task_loop (task_patterns __init__) prompt = None ->
               contains period (_extract_task __init__ prompt) = false /\
               exists rest, prompt = _extract_task __init__ prompt ++ rest).
  { intros Hn. unfold _extract_task. rewrite Hn.
    destruct (contains period prompt) eqn:Hc.
    - destruct (proj1 (contains_find _ _) Hc) as [i Hi].
      rewrite (@split_first prompt period i); [|discriminate|assumption].
      rewrite find_zero in Hi.
      destruct (@find_from_char_first _ prompt 0 i Hi) as [Hno _].
      split.
      + apply contains_char. exact Hno.
      + exists (skipn i prompt). symmetry. apply firstn_skipn.
    - split; [exact Hc|]. exists []. now rewrite app_nil_r. }
  cbv zeta. unfold _extract_task in *.
  destruct (task_loop (task_patterns __init__) prompt) as [t|] eqn:E.
  - destruct (Hm t eq_refl) as [Hc Ht]. split; [apply Hc|].
    split; [auto | discriminate].
  - destruct (Hf eq_refl) as [Hp Hr]. split; [exact Hp|].
    split; [congruence | auto].
Qed.

Lemma extract_task_shape_witness :
  clean (_extract_task __init__ (u "请 读一读 。好")) /\
  trimmed (_extract_task __init__ (u "请 读一读 。好")) /\
  exists rest, u " 你好 。好" = _extract_task __init__ (u " 你好 。好") ++ rest.
Proof.
  pose proof (extract_task_shape (u "请 读一读 。好")) as H1.
  pose proof (extract_task_shape (u " 你好 。好")) as H2.
  cbv zeta in H1, H2.
  destruct H1 as (_ & H1 & _). destruct H2 as (_ & _ & H2).
  destruct (H1 ltac:(vm_compute; discriminate)) as [Hc Ht].
  split; [exact Hc|]. split; [exact Ht|]. apply H2. reflexivity.
Defined.

Lemma requirements_loop_in (prompt r : str) :
  In r (requirements_loop requirement_patterns prompt []) ->
  exists t body rest, capture t = Some (body, rest) /\ r = strip body.
Proof.
  rewrite requirements_loop_app. cbn [app flat_map requirement_patterns].
  rewrite app_nil_r, !in_app_iff, !in_map_iff.
  intros [H | [H | H]]; destruct H as (g & <- & Hin);
    apply (@findall_go_lead_capture (_ :: _)) in Hin;
    try discriminate; destruct Hin as (t & rest & Hc); eauto.
Qed.

(** X4: every requirement, the default one included, holds no comma, no
    period and no newline, and neither begins nor ends with white space;
    an empty requirement is possible. *)
Theorem extract_requirements_shape (prompt r : str) :
  In r (_extract_requirements __init__ prompt) -> clean r /\ trimmed r.
Proof.
  unfold _extract_requirements.
  destruct (requirements_loop requirement_patterns prompt []) as [|r0 l] eqn:E.
  - intros [<- | []]. split.
    + unfold clean. split; [reflexivity|]. split; [reflexivity|].
      cbv. intuition discriminate.
    + split; intros c x Hx.
      * injection Hx as <- _. reflexivity.
      * apply (f_equal (@rev char)) in Hx. rewrite rev_app_distr in Hx.
        vm_compute in Hx. injection Hx as <- _. reflexivity.
  - intros Hin. rewrite <- E in Hin.
    destruct (requirements_loop_in _ _ Hin) as (t & body & rest & Hc & ->).
    exact (capture_strip_shape _ Hc).
Qed.

Lemma extract_requirements_shape_witness :
  clean (u "图表") /\ trimmed (u "图表") /\
  _extract_requirements __init__ (u "必须，需要 图表 。") = [u "图表"; u ""].
Proof.
  destruct (@extract_requirements_shape (u "必须，需要 图表 。") (u "图表"))
    as [Hc Ht].
  - vm_compute. now left.
  - split; [exact Hc|]. split; [exact Ht | reflexivity].
Defined.

Lemma search_from_absent (lead s : str) (k pos : nat) :
  find_from lead s k = None ->
  search_from (lead_pattern lead) s pos = None.
Proof.
  revert k pos; induction s as [|c s IH]; intros k pos;
    cbn [find_from search_from]; rewrite match_at_lead_pattern;
    unfold startswith.
  - destruct (strip_prefix lead []); [discriminate | reflexivity].
  - destruct (strip_prefix lead (c :: s)); [discriminate|]. apply IH.
Qed.

Lemma search_absent (lead s : str) :
  contains lead s = false -> search (lead_pattern lead) s = None.
Proof.
  intros H. apply contains_false_find in H. rewrite find_zero in H.
  exact (@search_from_absent lead s 0 0 H).
Qed.

Lemma skipn_lead (lead s t : str) :
  s = lead ++ t -> skipn (0 + List.length lead) s = t.
Proof.
  intros ->. cbn [Nat.add].
  now rewrite skipn_app, skipn_all, Nat.sub_diag.
Qed.

(** The match of a lead pattern at the first occurrence of the lead-in,
    when a text can be captured after it. *)
Lemma search_from_first (lead s body rest : str) (k i : nat) :
  find_from lead s k = Some (k + i) ->
  capture (skipn (i + List.length lead) s) = Some (body, rest) ->
  exists e,
    search_from (lead_pattern lead) s k = Some (mkMatch (k + i) e (Some body)).
Proof.
  revert k i; induction s as [|c s IH]; intros k i;
    cbn [find_from search_from]; rewrite match_at_lead_pattern;
    unfold startswith.
  - destruct (strip_prefix lead []) as [t|] eqn:E; [|discriminate].
    intros H Hc. assert (i = 0) by (injection H; lia). subst i.
    apply strip_prefix_Some in E. rewrite (@skipn_lead _ _ _ E) in Hc.
    rewrite Hc. replace (k + 0) with k by lia. eexists. reflexivity.
  - destruct (strip_prefix lead (c :: s)) as [t|] eqn:E.
    + intros H Hc. assert (i = 0) by (injection H; lia). subst i.
      apply strip_prefix_Some in E. rewrite (@skipn_lead _ _ _ E) in Hc.
      rewrite Hc. replace (k + 0) with k by lia. eexists. reflexivity.
    + intros H Hc. destruct i as [|i].
      * apply find_from_ge in H. lia.
      * replace (k + S i) with (S k + i) in * by lia.
        cbn [Nat.add skipn] in Hc. exact (IH _ _ H Hc).
Qed.

Lemma capture_body_tail (body tail : str) :
  (forall c, In c body -> c <> newline /\ [c] <> comma /\ [c] <> period) ->
  tail = [] \/ startswith tail comma = true \/ startswith tail period = true ->
  exists rest, capture (body ++ tail) = Some (body, rest).
Proof.
  intros Hb Ht. induction body as [|c body IH].
  - cbn [app]. assert (Hs : exists rest, terminator tail = Some rest).
    { unfold terminator, startswith in *. destruct Ht as [-> | [H | H]].
      - exists []. reflexivity.
      - destruct (strip_prefix comma tail); [eauto | discriminate].
      - destruct (strip_prefix comma tail); [eauto|].
        destruct (strip_prefix period tail); [eauto | discriminate]. }
    destruct Hs as [rest Hs]. exists rest.
    destruct tail; cbn [capture]; now rewrite Hs.
  - destruct IH as [rest IH]; [intros x Hx; apply Hb; now right|].
    exists rest. destruct (Hb c (or_introl eq_refl)) as (Hn & Hc & Hp).
    cbn [app capture]. rewrite IH.
    assert (Ht0 : terminator (c :: body ++ tail) = None).
    { unfold terminator, comma, period. cbn [strip_prefix].
      destruct (N.eqb_spec 65292 c) as [<- | _];
        [exfalso; apply Hc; reflexivity|].
      destruct (N.eqb_spec 12290 c) as [<- | _];
        [exfalso; apply Hp; reflexivity|].
      unfold at_end. destruct (body ++ tail); [|reflexivity].
      destruct (N.eqb_spec c newline); [contradiction | reflexivity]. }
    rewrite Ht0. destruct (N.eqb_spec c newline); [contradiction|].
    reflexivity.
Qed.

(** X5: when the lead-ins of the earlier task patterns do not occur in
    the prompt, and the first occurrence of a lead-in is followed by a
    text without comma, period or newline that ends at a comma, at a
    period or with the prompt, the task is that text, trimmed. *)
Theorem extract_task_after_lead (prompt : str)
  (before after : list str) (lead pre body tail : str) :
  task_leads = before ++ lead :: after ->
  (forall l, In l before -> contains l prompt = false) ->
  prompt = pre ++ lead ++ body ++ tail ->
  find prompt lead 0 = Some (List.length pre) ->
  (forall c, In c body -> c <> newline /\ [c] <> comma /\ [c] <> period) ->
  tail = [] \/ startswith tail comma = true \/ startswith tail period = true ->
  _extract_task __init__ prompt = strip body.
Proof.
  intros Hl Hb Hp Hf Hbody Htail.
  destruct (@capture_body_tail body tail Hbody Htail) as [rest Hc].
  assert (Hs : exists e, search (lead_pattern lead) prompt =
                         Some (mkMatch (List.length pre) e (Some body))).
  { unfold search. rewrite find_zero in Hf.
    apply (@search_from_first lead prompt body rest 0 (List.length pre) Hf).
    rewrite Hp, <- length_app, app_assoc, skipn_app, skipn_all, Nat.sub_diag.
    exact Hc. }
  destruct Hs as [e Hs].
  change (task_patterns __init__) with (map lead_pattern task_leads)
    in |- *. unfold _extract_task.
  change (task_patterns __init__) with (map lead_pattern task_leads).
  rewrite Hl, map_app. cbn [map].
  rewrite (@task_loop_first (map lead_pattern before)
             (map lead_pattern after) (lead_pattern lead) prompt
             (mkMatch (List.length pre) e (Some body)));
    [reflexivity | | exact Hs].
  intros p Hin. apply in_map_iff in Hin. destruct Hin as (l & <- & Hin).
  apply search_absent, Hb, Hin.
Qed.

Lemma extract_task_after_lead_witness :
  _extract_task __init__ (u "老师，我想要 一份 讲义。谢谢") = strip (u " 一份 讲义").
Proof.
  apply (@extract_task_after_lead (u "老师，我想要 一份 讲义。谢谢")
           [u "帮我"; u "请"; u "需要"] [] (u "想要")
           (u "老师，我") (u " 一份 讲义") (u "。谢谢")).
  - reflexivity.
  - intros l [<- | [<- | [<- | []]]]; reflexivity.
  - reflexivity.
  - reflexivity.
  - intros c Hin. vm_compute in Hin.
    repeat (destruct Hin as [<- | Hin];
            [repeat split; discriminate|]).
    destruct Hin.
  - right; right; reflexivity.
Defined.

Lemma nonempty_or_default (A T d : list str) (x : str) :
  match A ++ x :: T with
  | [] => d
  | y :: r => y :: r
  end = A ++ x :: T.
Proof. destruct A; reflexivity. Qed.

(** X6: when neither "帮我" nor "请" occurs in the prompt and the "需要"
    pattern matches, the task is also a requirement: it follows the
    requirements found by the "要求：" pattern. *)
Theorem task_among_requirements (prompt : str) (m : Match) :
  contains (u "帮我") prompt = false ->
  contains (u "请") prompt = false ->
  search (lead_pattern (u "需要")) prompt = Some m ->
  _extract_task __init__ prompt = strip (group1 m) /\
  exists later,
    _extract_requirements __init__ prompt =
    map strip (findall (lead_pattern (u "要求：")) prompt)
    ++ _extract_task __init__ prompt :: later.
Proof.
  intros H1 H2 Hm.
  assert (Ht : _extract_task __init__ prompt = strip (group1 m)).
  { unfold _extract_task.
    change (task_patterns __init__) with
      ([lead_pattern (u "帮我"); lead_pattern (u "请")]
       ++ lead_pattern (u "需要") :: [lead_pattern (u "想要")]).
    rewrite (@task_loop_first _ _ _ prompt m); [reflexivity | | exact Hm].
    intros p [<- | [<- | []]]; now apply search_absent. }
  split; [exact Ht|]. rewrite Ht.
  unfold _extract_requirements. rewrite requirements_loop_app.
  cbn [app flat_map requirement_patterns]. rewrite app_nil_r.
  change (findall _ prompt) with (findall (lead_pattern (u "需要")) prompt)
    at 2.
  rewrite (@findall_search (lead_pattern (u "需要")) prompt)
    by (apply (@lead_pattern_advances (_ :: _)); discriminate).
  rewrite Hm. cbn [map].
  eexists. apply nonempty_or_default.
Qed.

Lemma task_among_requirements_witness :
  _extract_task __init__ (u "要求：简短。我需要图表，谢谢") = u "图表" /\
  _extract_requirements __init__ (u "要求：简短。我需要图表，谢谢") =
    [u "简短"; u "图表"].
Proof.
  destruct (@task_among_requirements (u "要求：简短。我需要图表，谢谢")
              (mkMatch 7 12 (Some (u "图表"))))
    as [Ht [later Hr]]; try reflexivity.
  split; [exact Ht | reflexivity].
Defined.

(** X7: the examples and the constraints of the record are the entries
    that the two tables give for its prompt type; the fallback lists of
    the generators are never used by [optimize_prompt]. *)
Theorem generated_from_tables (prompt : str) :
  let r := optimized_prompt __init__ prompt in
  In (prompt_type r, examples r) examples_map /\
  In (prompt_type r, constraints r) constraints_map /\
  examples r <> [u "提供相关示例"] /\
  constraints r <> [u "遵循基本原则"; u "确保内容准确"].
Proof.
  cbv zeta. cbn [optimized_prompt prompt_type examples constraints
                 analyze_natural_prompt Analysis.prompt_type].
  unfold _classify_prompt_type.
  destruct (any_in creative_keywords prompt);
    [vm_compute; intuition discriminate|].
  destruct (any_in analytical_keywords prompt);
    [vm_compute; intuition discriminate|].
  destruct (any_in instructional_keywords prompt);
    vm_compute; intuition discriminate.
Qed.

(** *** The context *)

Lemma context_loop_cases (indicators : list str) (prompt : str) :
  context_loop indicators prompt = [] \/
  exists indicator start end_,
    In indicator indicators /\
    find prompt indicator 0 = Some start /\
    find prompt period start = Some end_ /\
    context_loop indicators prompt = slice prompt start (end_ + 1).
Proof.
  induction indicators as [|ind indicators IH]; [now left|].
  assert (IH' : context_loop indicators prompt = [] \/
                exists indicator start end_,
                  In indicator (ind :: indicators) /\
                  find prompt indicator 0 = Some start /\
                  find prompt period start = Some end_ /\
                  context_loop indicators prompt =
                  slice prompt start (end_ + 1)).
  { destruct IH as [E | (i & s & e & Hin & H)]; [now left|].
    right. exists i, s, e. split; [now right | exact H]. }
  cbn [context_loop]. destruct (contains ind prompt); [|exact IH'].
  destruct (find prompt ind 0) as [start|] eqn:Es; [|exact IH'].
  destruct (find prompt period start) as [end_|] eqn:Ee; [|exact IH'].
  right. exists ind, start, end_. repeat split; auto. now left.
Qed.

Lemma firstn_succ (s : str) (j : nat) (c : char) (rest : str) :
  skipn j s = c :: rest -> firstn (S j) s = firstn j s ++ [c].
Proof.
  revert s; induction j as [|j IH]; intros s.
  - cbn [skipn]. intros ->. reflexivity.
  - destruct s as [|x s]; [discriminate|]. cbn [skipn]. intros H.
    transitivity (x :: firstn (S j) s); [reflexivity|].
    rewrite (IH s H). reflexivity.
Qed.

(** A text that begins with [ind] and whose first [c] comes after [p]:
    when [ind] holds no [c], it is the beginning of [p]. *)
Lemma prefix_before_char (ind p q r : str) (c : char) :
  ind ++ r = p ++ c :: q -> ~ In c p -> ~ In c ind ->
  exists body, p = ind ++ body.
Proof.
  revert p; induction ind as [|a ind IH]; intros p E Hp Hi.
  - now exists p.
  - destruct p as [|a' p].
    + cbn [app] in E. injection E as -> _. exfalso. apply Hi. now left.
    + cbn [app] in E. injection E as <- E.
      destruct (IH p E) as [body ->].
      * intros H; apply Hp; now right.
      * intros H; apply Hi; now right.
      * now exists body.
Qed.

Lemma extract_context_cases (prompt : str) :
  _extract_context __init__ prompt = [] \/
  context_shape prompt (_extract_context __init__ prompt).
Proof.
  unfold _extract_context.
  destruct (context_loop_cases context_indicators prompt)
    as [E | (ind & start & end_ & Hin & Hs & He & ->)]; [now left|].
  right. rewrite find_zero in Hs.
  destruct (@find_from_occurs ind prompt 0 start Hs) as [r Hr].
  unfold find in He.
  destruct (start <=? List.length prompt); [|discriminate].
  assert (Hge : start <= end_) by exact (find_from_ge _ _ _ He).
  replace end_ with (start + (end_ - start)) in He by lia.
  destruct (@find_from_char_first _ _ _ _ He) as [Hno [rest Hrest]].
  unfold slice. replace (end_ + 1 - start) with (S (end_ - start)) by lia.
  rewrite (firstn_succ _ _ Hrest).
  set (j := end_ - start) in *. set (X := skipn start prompt) in *.
  pose proof (firstn_skipn j X) as HX. rewrite Hrest in HX.
  symmetry in HX.
  assert (Hind : ~ In 12290%N ind).
  { cbv [context_indicators In] in Hin.
    repeat (destruct Hin as [<- | Hin]; [cbv; intuition discriminate|]).
    destruct Hin. }
  assert (Hb : exists body, firstn j X = ind ++ body).
  { apply (@prefix_before_char ind (firstn j X) rest r 12290%N);
      [rewrite <- Hr; exact HX | exact Hno | exact Hind]. }
  destruct Hb as [body Hb].
  exists ind, body, (firstn start prompt), rest. split; [exact Hin|].
  split; [rewrite Hb; now rewrite <- app_assoc|].
  split.
  - apply contains_char. rewrite <- Hb. exact Hno.
  - rewrite <- app_assoc. cbn [app]. rewrite <- HX.
    symmetry. apply firstn_skipn.
Qed.

(** X8: a context that [_extract_context] finds is a piece of the prompt
    that begins with one of the four indicators, ends with a period and
    holds no other period; the context of the record is never empty: it
    is that piece, or the default sentence when none is found. *)
Theorem context_shape_or_default (prompt : str) :
  (_extract_context __init__ prompt = [] \/
   context_shape prompt (_extract_context __init__ prompt)) /\
  let c := context (optimized_prompt __init__ prompt) in
  c <> [] /\
  (_extract_context __init__ prompt = [] -> c = default_context) /\
  (_extract_context __init__ prompt <> [] -> context_shape prompt c).
Proof.
  split; [apply extract_context_cases|].
  cbn [optimized_prompt context analyze_natural_prompt Analysis.context].
  destruct (extract_context_cases prompt) as [E | H].
  - rewrite E. cbn [or_else]. repeat split; [discriminate | tauto].
  - destruct (_extract_context __init__ prompt) as [|x c] eqn:E.
    + repeat split; [discriminate | tauto].
    + cbn [or_else]. repeat split; [discriminate | discriminate | auto].
Qed.

Lemma context_shape_or_default_witness :
  context_shape (u "在这种情况下，请回答。谢谢")
    (context (optimized_prompt __init__ (u "在这种情况下，请回答。谢谢"))) /\
  context (optimized_prompt __init__ (u "你好")) = default_context.
Proof.
  split.
  - apply (proj2 (proj2 (proj2
             (context_shape_or_default (u "在这种情况下，请回答。谢谢"))))).
    vm_compute. discriminate.
  - apply (proj1 (proj2 (proj2 (context_shape_or_default (u "你好"))))).
    reflexivity.
Defined.

(** *** The printed text *)

(** X9: the text that [optimize_prompt] returns is read by [loads] as a
    dictionary whose keys are the nine field names in declaration
    order. *)
Theorem optimize_prompt_keys (self : PromptOptimizer) (prompt : str) :
  exists d,
    loads (optimize_prompt self prompt) = Some (JObject d) /\
    map fst d = field_names.
Proof.
  unfold optimize_prompt. rewrite loads_dumps by apply wf_asdict.
  unfold asdict. eexists. split; reflexivity.
Qed.

(** *** The command line *)

Section MainLoop.

Import Main.

Variable lower : str -> str.




(** [str.lower] moves the capital letters of a text of characters below
    128 to the small ones and leaves its other characters. *)
Hypothesis lower_ascii :
  forall s, Forall (fun c => (c < 128)%N) s -> lower s = map ascii_lower s.

Lemma ascii_lower_below (c : char) :
  (ascii_lower c < 128)%N -> (c < 128)%N.
Proof.
  unfold ascii_lower.
  destruct (N.leb_spec 65 c), (N.leb_spec c 90); cbn [andb]; lia.
Qed.

(** X12: a line that spells "quit" in any mix of capital and small
    letters ends the loop at once, unanswered. *)
Theorem main_quit_any_case (optimizer : PromptOptimizer) (line : str)
  (after : list str) :
  map ascii_lower line = u "quit" ->
  loop lower optimizer (line :: after) = ([Input ask], Break, after).
Proof.
  intros Hq. cbn [loop]. rewrite lower_ascii.
  - rewrite Hq. reflexivity.
  - assert (Hf : Forall (fun c => (c < 128)%N) (map ascii_lower line)).
    { rewrite Hq. repeat constructor. }
    rewrite Forall_map in Hf. rewrite Forall_forall in *.
    intros c Hin. apply ascii_lower_below, Hf, Hin.
Qed.

End MainLoop.



Lemma main_quit_any_case_witness :
  Main.loop (map Main.ascii_lower) __init__ (u "QuIt" :: [u "你好"]) =
  ([Main.Input Main.ask], Main.Break, [u "你好"]).
Proof.
  apply (@main_quit_any_case (map Main.ascii_lower)).
  - intros s _. reflexivity.
  - reflexivity.
Defined.
